(** * Session orchestration of the live voice agent

    A shallow embedding of [src/types.ts], of the storage service and of the
    session logic of [src/components/LiveAgent.tsx]: transcript assembly,
    playback scheduling, tool dispatch, interruption, [stopAudio] and
    [connectToLiveAPI].

    Conventions.
    - React state ([useState]) and refs ([useRef]) are fields of one record
      [State]; a [setX] call or a ref assignment is a field update.  The
      value a closure captured at the last render is kept apart from the
      value most recently set (see [commitRender]).
    - What the component does to the browser (closing an audio context,
      stopping or starting a source node, opening a session, sending a tool
      response, writing local storage) is appended to a log field of [State].
    - [Math.random], [Date] and [AudioContext.currentTime] are oracles of
      the environment [Env], indexed by a counter of reads ([tick]).
    - An [async] function is a [Task]: a tree whose [Await] nodes are the
      [await] points of the source.  Between an [Await] and its continuation
      other handlers may run, so the continuation receives the state anew.
    - Times and durations are exact rationals; the rounding of IEEE doubles
      is not represented.
    - JSX rendering and the analyser node are outside the embedded
      fragment. *)

From Stdlib Require Import QArith Qminmax Lqa.
From stdpp Require Import base list strings gmap.

(** ** Untyped JavaScript values

    The tool-call arguments reach the component as [fc.args as any]; a
    property that is absent reads as [undefined]. *)
Module Js.

Inductive JsVal :=
| JUndefined
| JNull
| JString (s : string).

#[global] Instance JsVal_eq_dec : EqDecision JsVal.
Proof. solve_decision. Defined.

(** Truthiness of a string: only the empty string is falsy. *)
Definition truthyString (s : string) : bool := bool_decide (s ≠ "").

Definition truthy (v : JsVal) : bool :=
  match v with
  | JString s => truthyString s
  | JUndefined | JNull => false
  end.

(** String coercion, as performed by a template literal. *)
Definition toString (v : JsVal) : string :=
  match v with
  | JUndefined => "undefined"
  | JNull => "null"
  | JString s => s
  end.

(** [a || b] *)
Definition or (a b : JsVal) : JsVal := if truthy a then a else b.

(** An object literal with string keys. *)
Definition JsObject : Type := list (string * JsVal).

(** [Array.from(new Set(xs))]: the distinct values of [xs], each at the
    position of its first occurrence. *)
Definition setAdd (seen : list JsVal) (x : JsVal) : list JsVal :=
  if decide (x ∈ seen) then seen else seen ++ [x].

Definition arrayFromSet (xs : list JsVal) : list JsVal := foldl setAdd [] xs.

(** [JSON.parse(JSON.stringify(xs))] on an array: [undefined] items come
    back as [null]. *)
Definition jsonArrayItem (v : JsVal) : JsVal :=
  match v with
  | JUndefined => JNull
  | _ => v
  end.

End Js.
Export Js.

(** ** src/types.ts *)
Module Types.

Inductive CallStatus := completed | failed | scheduled | pending.

Record CallRecord := {
  cr_id : string;
  cr_timestamp : Z;
  cr_recipient : JsVal;
  cr_summary : string;
  cr_status : CallStatus;
  cr_context : JsVal
}.

Record UserMemory := {
  preferences : list JsVal;
  lastInteraction : Z
}.

Inductive AgentState :=
| IDLE
| CONNECTING
| LISTENING
| SPEAKING
| PROCESSING
| ERROR
| IN_CALL.

#[global] Instance AgentState_eq_dec : EqDecision AgentState.
Proof. solve_decision. Defined.

Inductive LogType := Info | Tool | Error | Success | Alert.

Record LogEntry := {
  log_id : string;
  log_time : string;
  log_message : string;
  log_type : LogType
}.

Inductive Speaker := User | Agent.

#[global] Instance Speaker_eq_dec : EqDecision Speaker.
Proof. solve_decision. Defined.

Record TranscriptEntry := {
  te_id : string;
  te_speaker : Speaker;
  te_text : string;
  te_timestamp : string;
  te_isFinal : bool
}.

End Types.
Export Types.

(** ** The storage service (second part of src/types.ts)

    Each of the two local-storage keys holds either nothing or the JSON of
    a value this module wrote. *)
Module StorageService.

Record LocalStorage := {
  vox_calls : option (list CallRecord);
  vox_memory : option UserMemory
}.

Definition getCalls (ls : LocalStorage) : list CallRecord :=
  match vox_calls ls with
  | Some stored => stored
  | None => []
  end.

Definition saveCall (call : CallRecord) (ls : LocalStorage)
  : list CallRecord * LocalStorage :=
  let calls := getCalls ls in
  let updatedCalls := call :: calls in
  (updatedCalls, {| vox_calls := Some updatedCalls; vox_memory := vox_memory ls |}).

(** [now] is the reading of [Date.now()]. *)
Definition getMemory (now : Z) (ls : LocalStorage) : UserMemory :=
  match vox_memory ls with
  | Some stored => stored
  | None => {| preferences := []; lastInteraction := now |}
  end.

Definition updateMemory (now : Z) (newPreferences : list JsVal) (ls : LocalStorage)
  : UserMemory * LocalStorage :=
  let current := getMemory now ls in
  let updated :=
    {| preferences := arrayFromSet (preferences current ++ newPreferences);
       lastInteraction := now |} in
  (updated,
   {| vox_calls := vox_calls ls;
      vox_memory := Some {| preferences := jsonArrayItem <$> preferences updated;
                            lastInteraction := lastInteraction updated |} |}).

Definition clearHistory (ls : LocalStorage) : LocalStorage :=
  {| vox_calls := None; vox_memory := None |}.

End StorageService.
Export StorageService.

(** ** src/components/LiveAgent.tsx: data *)
Module LiveAgent.

(** [activeCallDetails] *)
Record CallDetails := {
  recipient : JsVal;
  number : JsVal
}.

(** A function call of a tool-call batch, and the response entry pushed
    for it.  [args] is optional in the type of a function call: [fc_args]
    is [None] for a call that carries no [args] object. *)
Record FunctionCall := {
  fc_id : string;
  fc_name : string;
  fc_args : option (gmap string JsVal)
}.

Record FunctionResponse := {
  fr_id : string;
  fr_name : string;
  fr_response : JsObject
}.

(** Handles of browser objects: identity is all the component uses. *)
Definition AudioContext : Type := nat.
Definition Session : Type := nat.
Definition MediaStream : Type := nat.

(** An [AudioBuffer]; its [duration] is [length / sampleRate] seconds. *)
Record AudioBuffer := {
  ab_length : N;
  ab_sampleRate : positive
}.

Definition duration (b : AudioBuffer) : Q := Z.of_N (ab_length b) # ab_sampleRate b.

(** An [AudioBufferSourceNode] created by [createBufferSource]. *)
Record SourceNode := {
  sn_handle : nat;
  sn_buffer : AudioBuffer
}.

#[global] Instance AudioBuffer_eq_dec : EqDecision AudioBuffer.
Proof. solve_decision. Defined.

#[global] Instance SourceNode_eq_dec : EqDecision SourceNode.
Proof. solve_decision. Defined.

(** The environment: the [n]-th reading of [Math.random().toString(36).substr(2, 9)],
    of [new Date().toLocaleTimeString()], of [Date.now()] and of
    [outputCtx.currentTime], and [process.env.API_KEY]. *)
Record Env := {
  randomId : nat → string;
  localeTime : nat → string;
  dateNow : nat → Z;
  currentTime : nat → Q;
  API_KEY : option string
}.

(** The component: React state, refs, the value of [agentState] captured by
    the closures of the last render, local storage, and the logs of the
    calls made on browser objects ([close], [stop], [start],
    [sendToolResponse], [ai.live.connect], [onCallComplete]). *)
Record State := MkState {
  agentState : AgentState;
  error : option string;
  isMicMuted : bool;
  logs : list LogEntry;
  transcripts : list TranscriptEntry;
  activeCallDetails : option CallDetails;
  agentStateRef : AgentState;
  audioContextRef : option AudioContext;
  inputContextRef : option AudioContext;
  nextStartTimeRef : Q;
  sourcesRef : list SourceNode;
  sessionRef : option Session;
  currentInputTransRef : string;
  currentOutputTransRef : string;
  isInitializingRef : bool;
  renderedAgentState : AgentState;
  localStorage : LocalStorage;
  closeLog : list AudioContext;
  stopLog : list SourceNode;
  startLog : list (SourceNode * Q);
  toolResponseLog : list (Session * list FunctionResponse);
  connectLog : list Session;
  callCompleteLog : nat;
  tick : nat;
  fresh : nat;
  env : Env
}.

Definition set_agentState (v : AgentState) (s : State) : State :=
  MkState
    v (error s) (isMicMuted s) (logs s) (transcripts s) (activeCallDetails s)
    (agentStateRef s) (audioContextRef s) (inputContextRef s) (nextStartTimeRef s)
    (sourcesRef s) (sessionRef s) (currentInputTransRef s) (currentOutputTransRef s)
    (isInitializingRef s) (renderedAgentState s) (localStorage s) (closeLog s)
    (stopLog s) (startLog s) (toolResponseLog s) (connectLog s) (callCompleteLog s)
    (tick s) (fresh s) (env s).
Definition set_error (v : option string) (s : State) : State :=
  MkState
    (agentState s) v (isMicMuted s) (logs s) (transcripts s) (activeCallDetails s)
    (agentStateRef s) (audioContextRef s) (inputContextRef s) (nextStartTimeRef s)
    (sourcesRef s) (sessionRef s) (currentInputTransRef s) (currentOutputTransRef s)
    (isInitializingRef s) (renderedAgentState s) (localStorage s) (closeLog s)
    (stopLog s) (startLog s) (toolResponseLog s) (connectLog s) (callCompleteLog s)
    (tick s) (fresh s) (env s).
Definition set_isMicMuted (v : bool) (s : State) : State :=
  MkState
    (agentState s) (error s) v (logs s) (transcripts s) (activeCallDetails s)
    (agentStateRef s) (audioContextRef s) (inputContextRef s) (nextStartTimeRef s)
    (sourcesRef s) (sessionRef s) (currentInputTransRef s) (currentOutputTransRef s)
    (isInitializingRef s) (renderedAgentState s) (localStorage s) (closeLog s)
    (stopLog s) (startLog s) (toolResponseLog s) (connectLog s) (callCompleteLog s)
    (tick s) (fresh s) (env s).
Definition set_logs (v : list LogEntry) (s : State) : State :=
  MkState
    (agentState s) (error s) (isMicMuted s) v (transcripts s) (activeCallDetails s)
    (agentStateRef s) (audioContextRef s) (inputContextRef s) (nextStartTimeRef s)
    (sourcesRef s) (sessionRef s) (currentInputTransRef s) (currentOutputTransRef s)
    (isInitializingRef s) (renderedAgentState s) (localStorage s) (closeLog s)
    (stopLog s) (startLog s) (toolResponseLog s) (connectLog s) (callCompleteLog s)
    (tick s) (fresh s) (env s).
Definition set_transcripts (v : list TranscriptEntry) (s : State) : State :=
  MkState
    (agentState s) (error s) (isMicMuted s) (logs s) v (activeCallDetails s)
    (agentStateRef s) (audioContextRef s) (inputContextRef s) (nextStartTimeRef s)
    (sourcesRef s) (sessionRef s) (currentInputTransRef s) (currentOutputTransRef s)
    (isInitializingRef s) (renderedAgentState s) (localStorage s) (closeLog s)
    (stopLog s) (startLog s) (toolResponseLog s) (connectLog s) (callCompleteLog s)
    (tick s) (fresh s) (env s).
Definition set_activeCallDetails (v : option CallDetails) (s : State) : State :=
  MkState
    (agentState s) (error s) (isMicMuted s) (logs s) (transcripts s) v
    (agentStateRef s) (audioContextRef s) (inputContextRef s) (nextStartTimeRef s)
    (sourcesRef s) (sessionRef s) (currentInputTransRef s) (currentOutputTransRef s)
    (isInitializingRef s) (renderedAgentState s) (localStorage s) (closeLog s)
    (stopLog s) (startLog s) (toolResponseLog s) (connectLog s) (callCompleteLog s)
    (tick s) (fresh s) (env s).
Definition set_agentStateRef (v : AgentState) (s : State) : State :=
  MkState
    (agentState s) (error s) (isMicMuted s) (logs s) (transcripts s)
    (activeCallDetails s) v (audioContextRef s) (inputContextRef s)
    (nextStartTimeRef s) (sourcesRef s) (sessionRef s) (currentInputTransRef s)
    (currentOutputTransRef s) (isInitializingRef s) (renderedAgentState s)
    (localStorage s) (closeLog s) (stopLog s) (startLog s) (toolResponseLog s)
    (connectLog s) (callCompleteLog s) (tick s) (fresh s) (env s).
Definition set_audioContextRef (v : option AudioContext) (s : State) : State :=
  MkState
    (agentState s) (error s) (isMicMuted s) (logs s) (transcripts s)
    (activeCallDetails s) (agentStateRef s) v (inputContextRef s) (nextStartTimeRef
    s) (sourcesRef s) (sessionRef s) (currentInputTransRef s) (currentOutputTransRef
    s) (isInitializingRef s) (renderedAgentState s) (localStorage s) (closeLog s)
    (stopLog s) (startLog s) (toolResponseLog s) (connectLog s) (callCompleteLog s)
    (tick s) (fresh s) (env s).
Definition set_inputContextRef (v : option AudioContext) (s : State) : State :=
  MkState
    (agentState s) (error s) (isMicMuted s) (logs s) (transcripts s)
    (activeCallDetails s) (agentStateRef s) (audioContextRef s) v (nextStartTimeRef
    s) (sourcesRef s) (sessionRef s) (currentInputTransRef s) (currentOutputTransRef
    s) (isInitializingRef s) (renderedAgentState s) (localStorage s) (closeLog s)
    (stopLog s) (startLog s) (toolResponseLog s) (connectLog s) (callCompleteLog s)
    (tick s) (fresh s) (env s).
Definition set_nextStartTimeRef (v : Q) (s : State) : State :=
  MkState
    (agentState s) (error s) (isMicMuted s) (logs s) (transcripts s)
    (activeCallDetails s) (agentStateRef s) (audioContextRef s) (inputContextRef s)
    v (sourcesRef s) (sessionRef s) (currentInputTransRef s) (currentOutputTransRef
    s) (isInitializingRef s) (renderedAgentState s) (localStorage s) (closeLog s)
    (stopLog s) (startLog s) (toolResponseLog s) (connectLog s) (callCompleteLog s)
    (tick s) (fresh s) (env s).
Definition set_sourcesRef (v : list SourceNode) (s : State) : State :=
  MkState
    (agentState s) (error s) (isMicMuted s) (logs s) (transcripts s)
    (activeCallDetails s) (agentStateRef s) (audioContextRef s) (inputContextRef s)
    (nextStartTimeRef s) v (sessionRef s) (currentInputTransRef s)
    (currentOutputTransRef s) (isInitializingRef s) (renderedAgentState s)
    (localStorage s) (closeLog s) (stopLog s) (startLog s) (toolResponseLog s)
    (connectLog s) (callCompleteLog s) (tick s) (fresh s) (env s).
Definition set_sessionRef (v : option Session) (s : State) : State :=
  MkState
    (agentState s) (error s) (isMicMuted s) (logs s) (transcripts s)
    (activeCallDetails s) (agentStateRef s) (audioContextRef s) (inputContextRef s)
    (nextStartTimeRef s) (sourcesRef s) v (currentInputTransRef s)
    (currentOutputTransRef s) (isInitializingRef s) (renderedAgentState s)
    (localStorage s) (closeLog s) (stopLog s) (startLog s) (toolResponseLog s)
    (connectLog s) (callCompleteLog s) (tick s) (fresh s) (env s).
Definition set_currentInputTransRef (v : string) (s : State) : State :=
  MkState
    (agentState s) (error s) (isMicMuted s) (logs s) (transcripts s)
    (activeCallDetails s) (agentStateRef s) (audioContextRef s) (inputContextRef s)
    (nextStartTimeRef s) (sourcesRef s) (sessionRef s) v (currentOutputTransRef s)
    (isInitializingRef s) (renderedAgentState s) (localStorage s) (closeLog s)
    (stopLog s) (startLog s) (toolResponseLog s) (connectLog s) (callCompleteLog s)
    (tick s) (fresh s) (env s).
Definition set_currentOutputTransRef (v : string) (s : State) : State :=
  MkState
    (agentState s) (error s) (isMicMuted s) (logs s) (transcripts s)
    (activeCallDetails s) (agentStateRef s) (audioContextRef s) (inputContextRef s)
    (nextStartTimeRef s) (sourcesRef s) (sessionRef s) (currentInputTransRef s) v
    (isInitializingRef s) (renderedAgentState s) (localStorage s) (closeLog s)
    (stopLog s) (startLog s) (toolResponseLog s) (connectLog s) (callCompleteLog s)
    (tick s) (fresh s) (env s).
Definition set_isInitializingRef (v : bool) (s : State) : State :=
  MkState
    (agentState s) (error s) (isMicMuted s) (logs s) (transcripts s)
    (activeCallDetails s) (agentStateRef s) (audioContextRef s) (inputContextRef s)
    (nextStartTimeRef s) (sourcesRef s) (sessionRef s) (currentInputTransRef s)
    (currentOutputTransRef s) v (renderedAgentState s) (localStorage s) (closeLog s)
    (stopLog s) (startLog s) (toolResponseLog s) (connectLog s) (callCompleteLog s)
    (tick s) (fresh s) (env s).
Definition set_renderedAgentState (v : AgentState) (s : State) : State :=
  MkState
    (agentState s) (error s) (isMicMuted s) (logs s) (transcripts s)
    (activeCallDetails s) (agentStateRef s) (audioContextRef s) (inputContextRef s)
    (nextStartTimeRef s) (sourcesRef s) (sessionRef s) (currentInputTransRef s)
    (currentOutputTransRef s) (isInitializingRef s) v (localStorage s) (closeLog s)
    (stopLog s) (startLog s) (toolResponseLog s) (connectLog s) (callCompleteLog s)
    (tick s) (fresh s) (env s).
Definition set_localStorage (v : LocalStorage) (s : State) : State :=
  MkState
    (agentState s) (error s) (isMicMuted s) (logs s) (transcripts s)
    (activeCallDetails s) (agentStateRef s) (audioContextRef s) (inputContextRef s)
    (nextStartTimeRef s) (sourcesRef s) (sessionRef s) (currentInputTransRef s)
    (currentOutputTransRef s) (isInitializingRef s) (renderedAgentState s) v
    (closeLog s) (stopLog s) (startLog s) (toolResponseLog s) (connectLog s)
    (callCompleteLog s) (tick s) (fresh s) (env s).
Definition set_closeLog (v : list AudioContext) (s : State) : State :=
  MkState
    (agentState s) (error s) (isMicMuted s) (logs s) (transcripts s)
    (activeCallDetails s) (agentStateRef s) (audioContextRef s) (inputContextRef s)
    (nextStartTimeRef s) (sourcesRef s) (sessionRef s) (currentInputTransRef s)
    (currentOutputTransRef s) (isInitializingRef s) (renderedAgentState s)
    (localStorage s) v (stopLog s) (startLog s) (toolResponseLog s) (connectLog s)
    (callCompleteLog s) (tick s) (fresh s) (env s).
Definition set_stopLog (v : list SourceNode) (s : State) : State :=
  MkState
    (agentState s) (error s) (isMicMuted s) (logs s) (transcripts s)
    (activeCallDetails s) (agentStateRef s) (audioContextRef s) (inputContextRef s)
    (nextStartTimeRef s) (sourcesRef s) (sessionRef s) (currentInputTransRef s)
    (currentOutputTransRef s) (isInitializingRef s) (renderedAgentState s)
    (localStorage s) (closeLog s) v (startLog s) (toolResponseLog s) (connectLog s)
    (callCompleteLog s) (tick s) (fresh s) (env s).
Definition set_startLog (v : list (SourceNode * Q)) (s : State) : State :=
  MkState
    (agentState s) (error s) (isMicMuted s) (logs s) (transcripts s)
    (activeCallDetails s) (agentStateRef s) (audioContextRef s) (inputContextRef s)
    (nextStartTimeRef s) (sourcesRef s) (sessionRef s) (currentInputTransRef s)
    (currentOutputTransRef s) (isInitializingRef s) (renderedAgentState s)
    (localStorage s) (closeLog s) (stopLog s) v (toolResponseLog s) (connectLog s)
    (callCompleteLog s) (tick s) (fresh s) (env s).
Definition set_toolResponseLog (v : list (Session * list FunctionResponse)) (s : State) : State :=
  MkState
    (agentState s) (error s) (isMicMuted s) (logs s) (transcripts s)
    (activeCallDetails s) (agentStateRef s) (audioContextRef s) (inputContextRef s)
    (nextStartTimeRef s) (sourcesRef s) (sessionRef s) (currentInputTransRef s)
    (currentOutputTransRef s) (isInitializingRef s) (renderedAgentState s)
    (localStorage s) (closeLog s) (stopLog s) (startLog s) v (connectLog s)
    (callCompleteLog s) (tick s) (fresh s) (env s).
Definition set_connectLog (v : list Session) (s : State) : State :=
  MkState
    (agentState s) (error s) (isMicMuted s) (logs s) (transcripts s)
    (activeCallDetails s) (agentStateRef s) (audioContextRef s) (inputContextRef s)
    (nextStartTimeRef s) (sourcesRef s) (sessionRef s) (currentInputTransRef s)
    (currentOutputTransRef s) (isInitializingRef s) (renderedAgentState s)
    (localStorage s) (closeLog s) (stopLog s) (startLog s) (toolResponseLog s) v
    (callCompleteLog s) (tick s) (fresh s) (env s).
Definition set_callCompleteLog (v : nat) (s : State) : State :=
  MkState
    (agentState s) (error s) (isMicMuted s) (logs s) (transcripts s)
    (activeCallDetails s) (agentStateRef s) (audioContextRef s) (inputContextRef s)
    (nextStartTimeRef s) (sourcesRef s) (sessionRef s) (currentInputTransRef s)
    (currentOutputTransRef s) (isInitializingRef s) (renderedAgentState s)
    (localStorage s) (closeLog s) (stopLog s) (startLog s) (toolResponseLog s)
    (connectLog s) v (tick s) (fresh s) (env s).
Definition set_tick (v : nat) (s : State) : State :=
  MkState
    (agentState s) (error s) (isMicMuted s) (logs s) (transcripts s)
    (activeCallDetails s) (agentStateRef s) (audioContextRef s) (inputContextRef s)
    (nextStartTimeRef s) (sourcesRef s) (sessionRef s) (currentInputTransRef s)
    (currentOutputTransRef s) (isInitializingRef s) (renderedAgentState s)
    (localStorage s) (closeLog s) (stopLog s) (startLog s) (toolResponseLog s)
    (connectLog s) (callCompleteLog s) v (fresh s) (env s).
Definition set_fresh (v : nat) (s : State) : State :=
  MkState
    (agentState s) (error s) (isMicMuted s) (logs s) (transcripts s)
    (activeCallDetails s) (agentStateRef s) (audioContextRef s) (inputContextRef s)
    (nextStartTimeRef s) (sourcesRef s) (sessionRef s) (currentInputTransRef s)
    (currentOutputTransRef s) (isInitializingRef s) (renderedAgentState s)
    (localStorage s) (closeLog s) (stopLog s) (startLog s) (toolResponseLog s)
    (connectLog s) (callCompleteLog s) (tick s) v (env s).
Definition set_env (v : Env) (s : State) : State :=
  MkState
    (agentState s) (error s) (isMicMuted s) (logs s) (transcripts s)
    (activeCallDetails s) (agentStateRef s) (audioContextRef s) (inputContextRef s)
    (nextStartTimeRef s) (sourcesRef s) (sessionRef s) (currentInputTransRef s)
    (currentOutputTransRef s) (isInitializingRef s) (renderedAgentState s)
    (localStorage s) (closeLog s) (stopLog s) (startLog s) (toolResponseLog s)
    (connectLog s) (callCompleteLog s) (tick s) (fresh s) v.

(** ** Helper methods *)

Definition addLog (message : string) (type : LogType) (s : State) : State :=
  let entry :=
    {| log_id := randomId (env s) (tick s);
       log_time := localeTime (env s) (tick s);
       log_message := message;
       log_type := type |} in
  set_tick (S (tick s)) (set_logs (logs s ++ [entry]) s).

(** The updater [prev => ...] that [updateTranscript] hands to
    [setTranscripts]; [id] and [now] are the readings of [Math.random] and
    of the clock. *)
Definition updateTranscript_updater (id now : string)
    (speaker : Speaker) (text : string) (isFinal : bool)
    (prev : list TranscriptEntry) : list TranscriptEntry :=
  let fresh_entry :=
    {| te_id := id; te_speaker := speaker; te_text := text;
       te_timestamp := now; te_isFinal := isFinal |} in
  match last prev with
  | Some last_entry =>
      if bool_decide (te_speaker last_entry = speaker) && negb (te_isFinal last_entry)
      then removelast prev ++
           [ {| te_id := te_id last_entry; te_speaker := te_speaker last_entry;
                te_text := text; te_timestamp := now; te_isFinal := isFinal |} ]
      else prev ++ [fresh_entry]
  | None => prev ++ [fresh_entry]
  end.

Definition updateTranscript (speaker : Speaker) (text : string) (isFinal : bool)
    (s : State) : State :=
  set_tick (S (tick s))
    (set_transcripts
       (updateTranscript_updater (randomId (env s) (tick s)) (localeTime (env s) (tick s))
          speaker text isFinal (transcripts s)) s).

(** A render commits the state set so far: the effect
    [agentStateRef.current = agentState] runs and the handlers created by
    this render capture [agentState]. *)
Definition commitRender (s : State) : State :=
  set_renderedAgentState (agentState s) (set_agentStateRef (agentState s) s).

(** ** Audio lifecycle *)

Definition closeContext (ctx : option AudioContext) (s : State) : State :=
  match ctx with
  | Some c => set_closeLog (closeLog s ++ [c]) s
  | None => s
  end.

(** [sourcesRef.current.forEach(s => s.stop())] *)
Definition stopSources (s : State) : State :=
  set_stopLog (stopLog s ++ sourcesRef s) s.

(** In [stopAudio] each [source.stop()] sits in a [try]/[catch] that
    swallows whatever it throws. *)
Definition stopAudio (s : State) : State :=
  let s := set_audioContextRef None (closeContext (audioContextRef s) s) in
  let s := set_inputContextRef None (closeContext (inputContextRef s) s) in
  let s := stopSources s in
  let s := set_sourcesRef [] s in
  let s := set_agentState IDLE s in
  let s := set_activeCallDetails None s in
  let s := set_isInitializingRef false s in
  addLog "Session ended" Alert s.

(** The listener of a source node's [ended] event. *)
Definition sourceEnded (sourceNode : SourceNode) (s : State) : State :=
  set_sourcesRef (filter (λ n, n ≠ sourceNode) (sourcesRef s)) s.

(** ** Asynchronous functions

    [Ev X] is what an [await] waits for, with the type [X] of what it
    settles to; a rejected promise settles to [inr message]. *)
Inductive Ev : Type → Type :=
| Timeout (ms : nat) : Ev unit
| GetUserMedia : Ev (MediaStream + string)
| DecodeAudioData (base64 : string) : Ev (AudioBuffer + string).

Inductive Task (A : Type) : Type :=
| Done (a : A) (s : State)
| Thrown (message : string) (s : State)
| Await {X : Type} (ev : Ev X) (s : State) (k : X → State → Task A).

Arguments Done {A} a s.
Arguments Thrown {A} message s.
Arguments Await {A X} ev s k.

Fixpoint Task_bind {A B : Type} (t : Task A) (f : A → State → Task B) : Task B :=
  match t with
  | Done a s => f a s
  | Thrown message s => Thrown message s
  | Await ev s k => Await ev s (λ x s', Task_bind (k x s') f)
  end.

(** [try { t } catch (err) { h err }] *)
Fixpoint Task_catch {A : Type} (t : Task A) (h : string → State → Task A) : Task A :=
  match t with
  | Done a s => Done a s
  | Thrown message s => h message s
  | Await ev s k => Await ev s (λ x s', Task_catch (k x s') h)
  end.

Definition Async (A : Type) : Type := State → Task A.

#[global] Instance Async_ret : MRet Async := λ A a s, Done a s.
#[global] Instance Async_bind : MBind Async := λ A B f m s, Task_bind (m s) f.

Definition modify (f : State → State) : Async unit := λ s, Done tt (f s).
Definition gets {A : Type} (f : State → A) : Async A := λ s, Done (f s) s.
Definition await {X : Type} (ev : Ev X) : Async X := λ s, Await ev s (λ x s', Done x s').
Definition throw {A : Type} (message : string) : Async A := λ s, Thrown message s.
Definition try_catch {A : Type} (m : Async A) (h : string → Async A) : Async A :=
  λ s, Task_catch (m s) h.

(** Unfolds the monadic plumbing and takes the steps that need no case
    analysis. *)
Ltac async_simpl :=
  cbv [mbind mret Async_bind Async_ret modify gets await throw try_catch];
  cbn [Task_bind Task_catch].

(** What an asynchronous function has done once it has settled. *)
Inductive Outcome (A : Type) : Type :=
| Returned (a : A) (s : State)
| Rejected (message : string) (s : State).

Arguments Returned {A} a s.
Arguments Rejected {A} message s.

Definition final {A : Type} (o : Outcome A) : State :=
  match o with
  | Returned _ s => s
  | Rejected _ s => s
  end.

(** A schedule fixes, for the [n]-th suspension of a task, what the awaited
    promise settles to and what the other handlers do to the state in the
    meantime. *)
Record Schedule := {
  settle : nat → ∀ X : Type, Ev X → X;
  meanwhile : nat → State → State
}.

Fixpoint runFrom {A : Type} (sch : Schedule) (n : nat) (t : Task A) : Outcome A :=
  match t with
  | Done a s => Returned a s
  | Thrown message s => Rejected message s
  | Await ev s k => runFrom sch (S n) (k (settle sch n _ ev) (meanwhile sch n s))
  end.

Definition run {A : Type} (sch : Schedule) (t : Task A) : Outcome A := runFrom sch 0 t.

(** ** The remote session's messages

    The fields of [LiveServerMessage] that [onmessage] reads:
    [serverContent?.outputTranscription] and [inputTranscription] (their
    [text]), [serverContent?.turnComplete], [toolCall] (its
    [functionCalls]), [serverContent?.modelTurn?.parts?.[0]?.inlineData?.data]
    and [serverContent?.interrupted]. *)
Record LiveServerMessage := {
  outputTranscription : option string;
  inputTranscription : option string;
  turnComplete : bool;
  toolCall : option (list FunctionCall);
  inlineData : option string;
  interrupted : bool
}.

(** *** 1. Transcription *)

Definition handleTranscription (message : LiveServerMessage) (s : State) : State :=
  match outputTranscription message with
  | Some text =>
      let s := set_currentOutputTransRef (currentOutputTransRef s +:+ text) s in
      updateTranscript Agent (currentOutputTransRef s) false s
  | None =>
      match inputTranscription message with
      | Some text =>
          let s := set_currentInputTransRef (currentInputTransRef s +:+ text) s in
          updateTranscript User (currentInputTransRef s) false s
      | None => s
      end
  end.

Definition handleTurnComplete (message : LiveServerMessage) (s : State) : State :=
  if turnComplete message then
    let s :=
      if truthyString (currentInputTransRef s) then
        set_currentInputTransRef "" (updateTranscript User (currentInputTransRef s) true s)
      else s in
    if truthyString (currentOutputTransRef s) then
      set_agentState LISTENING
        (set_currentOutputTransRef ""
           (updateTranscript Agent (currentOutputTransRef s) true s))
    else s
  else s.

(** *** 2. Tool calls *)

(** Reading a property of [fc.args as any], by destructuring or by member
    access, throws a [TypeError] when the call carries no [args]; the loop
    has no [try] around it.  The text of the message is the engine's and
    nothing reads it. *)
Definition argsMissing : string := "TypeError: fc.args is undefined".

Definition requireArgs (fc : FunctionCall) : Async unit :=
  match fc_args fc with
  | Some _ => mret tt
  | None => throw argsMissing
  end.

(** [fc.args.name], of a call that carries [args]: a property that is
    absent reads as [undefined]. *)
Definition arg (fc : FunctionCall) (name : string) : JsVal :=
  default JUndefined (fc_args fc ≫= (.!! name)).

Definition onCallComplete (s : State) : State :=
  set_callCompleteLog (S (callCompleteLog s)) s.

(** The body of the loop for one function call, up to the value of
    [result]. *)
Definition executeFunctionCall (fc : FunctionCall) : Async JsObject :=
  if decide (fc_name fc = "execute_call") then
    requireArgs fc;;
    let recipientName := arg fc "recipientName" in
    let phoneNumber := arg fc "phoneNumber" in
    let objective := arg fc "objective" in
    let callScript := arg fc "callScript" in
    modify (set_activeCallDetails (Some {| recipient := recipientName; number := phoneNumber |}));;
    modify (set_agentState IN_CALL);;
    modify (set_isMicMuted true);;
    modify (addLog ("📞 Call Active: " +:+ toString recipientName +:+ ". Mic Muted for listening.") Alert);;
    await (Timeout 1500);;
    modify (addLog "📞 Connected - Agent Simulating Conversation" Success);;
    modify (λ s,
      let newCall :=
        {| cr_id := randomId (env s) (tick s);
           cr_timestamp := dateNow (env s) (tick s);
           cr_recipient := recipientName;
           cr_summary := "Called " +:+ toString phoneNumber +:+ ". Objective: " +:+ toString objective +:+ ".";
           cr_status := completed;
           cr_context := Js.or callScript objective |} in
      set_tick (S (tick s)) (set_localStorage (saveCall newCall (localStorage s)).2 s));;
    modify onCallComplete;;
    mret [("status", JString "Call executed.");
          ("note", JString "You are now connected. ACT OUT the conversation audibly for the user.")]
  else if decide (fc_name fc = "find_business_number") then
    requireArgs fc;;
    modify (addLog ("Searching for: " +:+ toString (arg fc "query")) Info);;
    await (Timeout 1000);;
    modify (addLog "Found number: 555-0199" Success);;
    mret [("phoneNumber", JString "555-0199");
          ("businessName", arg fc "query");
          ("address", JString "123 Mock Lane")]
  else if decide (fc_name fc = "save_user_preference") then
    requireArgs fc;;
    let preference := arg fc "preference" in
    modify (λ s,
      set_tick (S (tick s))
        (set_localStorage (updateMemory (dateNow (env s) (tick s)) [preference] (localStorage s)).2 s));;
    modify (addLog ("Memory Updated: " +:+ toString preference) Success);;
    mret [("status", JString "Memory saved")]
  else
    mret [("result", JString "Success")].

(** [for (const fc of message.toolCall.functionCalls) { ... functionResponses.push(...) }] *)
Fixpoint executeFunctionCalls (functionCalls : list FunctionCall)
    (functionResponses : list FunctionResponse) : Async (list FunctionResponse) :=
  match functionCalls with
  | [] => mret functionResponses
  | fc :: rest =>
      modify (addLog ("Executing: " +:+ fc_name fc) Info);;
      result ← executeFunctionCall fc;
      executeFunctionCalls rest
        (functionResponses ++ [ {| fr_id := fc_id fc; fr_name := fc_name fc; fr_response := result |} ])
  end.

(** [if (sessionRef.current) sessionRef.current.sendToolResponse({ functionResponses })] *)
Definition sendToolResponse (functionResponses : list FunctionResponse) (s : State) : State :=
  match sessionRef s with
  | Some session => set_toolResponseLog (toolResponseLog s ++ [(session, functionResponses)]) s
  | None => s
  end.

Definition handleToolCall (message : LiveServerMessage) : Async unit :=
  match toolCall message with
  | Some functionCalls =>
      modify (addLog "Tool Triggered" Tool);;
      functionResponses ← executeFunctionCalls functionCalls [];
      modify (sendToolResponse functionResponses)
  | None => mret tt
  end.

(** *** 3. Audio output *)

(** The first statements of the audio branch, before the buffer is
    decoded. *)
Definition beginAudioOutput (s : State) : State :=
  if bool_decide (agentStateRef s ≠ IN_CALL) then set_agentState SPEAKING s else s.

(** The statements after the buffer is decoded: the node is created,
    started at [max(cursor, now)] and added to the active set, and the
    cursor advances by the buffer's duration.  [now] is the reading of
    [outputCtx.currentTime]. *)
Definition scheduleSource (audioBuffer : AudioBuffer) (now : Q) (s : State) : State :=
  let sourceNode := {| sn_handle := fresh s; sn_buffer := audioBuffer |} in
  let s := set_fresh (S (fresh s)) s in
  let s := set_nextStartTimeRef (Qmax (nextStartTimeRef s) now) s in
  let s := set_startLog (startLog s ++ [(sourceNode, nextStartTimeRef s)]) s in
  let s := set_nextStartTimeRef (nextStartTimeRef s + duration audioBuffer)%Q s in
  set_sourcesRef (if decide (sourceNode ∈ sourcesRef s) then sourcesRef s
                  else sourcesRef s ++ [sourceNode]) s.

Definition handleAudioOutput (message : LiveServerMessage) : Async unit :=
  match inlineData message with
  | Some base64Audio =>
      if truthyString base64Audio then
        modify beginAudioOutput;;
        decoded ← await (DecodeAudioData base64Audio);
        match decoded with
        | inl audioBuffer =>
            modify (λ s, set_tick (S (tick s))
                           (scheduleSource audioBuffer (currentTime (env s) (tick s)) s))
        | inr message => throw message
        end
      else mret tt
  | None => mret tt
  end.

(** *** 4. Interruption *)

Definition handleInterruption (message : LiveServerMessage) (s : State) : State :=
  if interrupted message then
    let s := addLog "Agent interrupted by user" Alert s in
    let s := stopSources s in
    let s := set_sourcesRef [] s in
    let s := set_nextStartTimeRef 0%Q s in
    let s := set_currentOutputTransRef "" s in
    set_agentState LISTENING s
  else s.

(** *** The session callbacks *)

Definition onmessage (message : LiveServerMessage) : Async unit :=
  modify (handleTranscription message);;
  modify (handleTurnComplete message);;
  handleToolCall message;;
  handleAudioOutput message;;
  modify (handleInterruption message).

Definition onopen (s : State) : State :=
  let s := addLog "Connected to Gemini Live API" Success s in
  let s := set_agentState LISTENING s in
  set_isInitializingRef false s.

Definition onclose (s : State) : State :=
  stopAudio (addLog "Connection closed" Alert s).

Definition onerror (err_message : string) (s : State) : State :=
  let s := set_error (Some "Connection error. Check console.") s in
  let s := addLog ("Error: " +:+ err_message) Error s in
  stopAudio s.

(** [sessionPromise.then(session => { sessionRef.current = session })] *)
Definition sessionResolved (session : Session) (s : State) : State :=
  set_sessionRef (Some session) s.

(** ** Connecting *)

(** [!process.env.API_KEY] *)
Definition missingKey (key : option string) : bool :=
  match key with
  | Some k => negb (truthyString k)
  | None => true
  end.

(** The two [new AudioContextClass(...)], the refs that hold them and the
    cursor set to the playback context's clock. *)
Definition openContexts (s : State) : State :=
  let inputCtx := fresh s in
  let outputCtx := S (fresh s) in
  let s := set_fresh (S (S (fresh s))) s in
  let s := set_inputContextRef (Some inputCtx) s in
  let s := set_audioContextRef (Some outputCtx) s in
  set_tick (S (tick s)) (set_nextStartTimeRef (currentTime (env s) (tick s)) s).

(** [ai.live.connect(config)]: a session is opened; its handle reaches
    [sessionRef] later, through [sessionResolved].  The configuration
    bundle itself is not represented. *)
Definition liveConnect (s : State) : State :=
  set_fresh (S (fresh s)) (set_connectLog (connectLog s ++ [fresh s]) s).

Definition connectToLiveAPI : Async unit := λ s,
  if isInitializingRef s || bool_decide (renderedAgentState s ≠ IDLE) then Done tt s
  else
    (modify (set_isInitializingRef true);;
     modify (set_error None);;
     modify (set_agentState CONNECTING);;
     modify (addLog "Initializing audio contexts..." Info);;
     try_catch
       (key ← gets (λ s, API_KEY (env s));
        if missingKey key then throw "API Key not found in environment."
        else
          modify openContexts;;
          modify (addLog "Requesting microphone access..." Info);;
          stream ← await GetUserMedia;
          match stream with
          | inl _ => modify liveConnect
          | inr message => throw message
          end)
       (λ message,
          modify (set_error (Some (if truthyString message then message
                                   else "Failed to start session")));;
          modify (addLog ("Setup Error: " +:+ message) Error);;
          modify (set_isInitializingRef false);;
          modify (set_agentState IDLE))) s.

(** ** A component freshly mounted, and deliveries of messages *)

Definition mount (e : Env) : State :=
  {| agentState := IDLE; error := None; isMicMuted := false; logs := [];
     transcripts := []; activeCallDetails := None; agentStateRef := IDLE;
     audioContextRef := None; inputContextRef := None; nextStartTimeRef := 0%Q;
     sourcesRef := []; sessionRef := None; currentInputTransRef := "";
     currentOutputTransRef := ""; isInitializingRef := false;
     renderedAgentState := IDLE;
     localStorage := {| vox_calls := None; vox_memory := None |};
     closeLog := []; stopLog := []; startLog := []; toolResponseLog := [];
     connectLog := []; callCompleteLog := 0; tick := 0; fresh := 0; env := e |}.

(** The messages of [messages] handled one after the other, each to its
    end, under the schedule [sch]. *)
Definition deliver (sch : Schedule) (messages : list LiveServerMessage) (s : State) : State :=
  foldl (λ s message, final (run sch (onmessage message s))) s messages.

Definition noMessage : LiveServerMessage :=
  {| outputTranscription := None; inputTranscription := None; turnComplete := false;
     toolCall := None; inlineData := None; interrupted := false |}.

Definition outputDelta (text : string) : LiveServerMessage :=
  {| outputTranscription := Some text; inputTranscription := None; turnComplete := false;
     toolCall := None; inlineData := None; interrupted := false |}.

Definition inputDelta (text : string) : LiveServerMessage :=
  {| outputTranscription := None; inputTranscription := Some text; turnComplete := false;
     toolCall := None; inlineData := None; interrupted := false |}.

Definition delta (speaker : Speaker) (text : string) : LiveServerMessage :=
  match speaker with
  | User => inputDelta text
  | Agent => outputDelta text
  end.

Definition turnCompleteMessage : LiveServerMessage :=
  {| outputTranscription := None; inputTranscription := None; turnComplete := true;
     toolCall := None; inlineData := None; interrupted := false |}.

Definition toolCallMessage (functionCalls : list FunctionCall) : LiveServerMessage :=
  {| outputTranscription := None; inputTranscription := None; turnComplete := false;
     toolCall := Some functionCalls; inlineData := None; interrupted := false |}.

Definition audioMessage (base64 : string) : LiveServerMessage :=
  {| outputTranscription := None; inputTranscription := None; turnComplete := false;
     toolCall := None; inlineData := Some base64; interrupted := false |}.

Definition interruptedMessage : LiveServerMessage :=
  {| outputTranscription := None; inputTranscription := None; turnComplete := false;
     toolCall := None; inlineData := None; interrupted := true |}.

(** Reduces the steps of the handlers, the field updates and the field
    reads of a state expression, and nothing else.  It is meant for states
    whose record and whose tested fields have been destructed. *)
Ltac step_simpl :=
  lazy beta iota zeta delta [
    addLog updateTranscript commitRender closeContext stopSources stopAudio sourceEnded
    onCallComplete sendToolResponse beginAudioOutput scheduleSource
    onopen onclose onerror sessionResolved openContexts liveConnect
    set_agentState set_error set_isMicMuted set_logs set_transcripts
    set_activeCallDetails set_agentStateRef set_audioContextRef set_inputContextRef
    set_nextStartTimeRef set_sourcesRef set_sessionRef set_currentInputTransRef
    set_currentOutputTransRef set_isInitializingRef set_renderedAgentState
    set_localStorage set_closeLog set_stopLog set_startLog set_toolResponseLog
    set_connectLog set_callCompleteLog set_tick set_fresh set_env agentState error
    isMicMuted logs transcripts activeCallDetails agentStateRef audioContextRef
    inputContextRef nextStartTimeRef sourcesRef sessionRef currentInputTransRef
    currentOutputTransRef isInitializingRef renderedAgentState localStorage closeLog
    stopLog startLog toolResponseLog connectLog callCompleteLog tick fresh env ].

End LiveAgent.
Export LiveAgent.

(** ** Vocabulary of the properties *)
Module Vocabulary.

(** One call of [updateTranscript], with the readings it makes. *)
Record UpdateCall := {
  uc_id : string;
  uc_now : string;
  uc_speaker : Speaker;
  uc_text : string;
  uc_isFinal : bool
}.

Definition applyUpdate (prev : list TranscriptEntry) (c : UpdateCall) : list TranscriptEntry :=
  updateTranscript_updater (uc_id c) (uc_now c) (uc_speaker c) (uc_text c) (uc_isFinal c) prev.

Definition applyUpdates (calls : list UpdateCall) (prev : list TranscriptEntry)
  : list TranscriptEntry :=
  foldl applyUpdate prev calls.

(** The entry [e] sits at index [i] of [prev] and is final or no longer
    the last one. *)
Definition settledAt (prev : list TranscriptEntry) (i : nat) (e : TranscriptEntry) : Prop :=
  prev !! i = Some e ∧ (te_isFinal e = true ∨ S i < length prev).

(** The entry an update of [speaker] would replace. *)
Definition pendingOf (speaker : Speaker) (e : TranscriptEntry) : bool :=
  bool_decide (te_speaker e = speaker) && negb (te_isFinal e).

(** The transcript without its last entry when that entry is pending for
    [speaker]. *)
Definition settledPart (speaker : Speaker) (prev : list TranscriptEntry)
  : list TranscriptEntry :=
  match last prev with
  | Some e => if pendingOf speaker e then removelast prev else prev
  | None => prev
  end.

(** The deltas joined in arrival order. *)
Definition concatenation (deltas : list string) : string :=
  foldr String.append "" deltas.

(** The accumulator of a direction. *)
Definition accumulator (speaker : Speaker) (s : State) : string :=
  match speaker with
  | User => currentInputTransRef s
  | Agent => currentOutputTransRef s
  end.

(** The entries of [speaker]. *)
Definition entriesOf (speaker : Speaker) (l : list TranscriptEntry) : list TranscriptEntry :=
  filter (λ e, te_speaker e = speaker) l.

(** Start and end, on the playback clock, of a source as it was started. *)
Definition startOf (p : SourceNode * Q) : Q := p.2.
Definition endOf (p : SourceNode * Q) : Q := (p.2 + duration (sn_buffer p.1))%Q.

(** Each source ends before every later one starts. *)
Definition backToBack (scheduled : list (SourceNode * Q)) : Prop :=
  ∀ i j p q, i < j → scheduled !! i = Some p → scheduled !! j = Some q →
    (endOf p <= startOf q)%Q.

(** Since the start log was [base], the sources started are back to back
    and all end at or before the cursor. *)
Definition queuedSince (base : list (SourceNode * Q)) (s : State) : Prop :=
  ∃ scheduled, startLog s = base ++ scheduled
    ∧ backToBack scheduled
    ∧ ∀ p, p ∈ scheduled → (endOf p <= nextStartTimeRef s)%Q.

(** The buffers that the audio payloads, each delivered in a message of
    its own under [sch], decode to: the handler skips an empty payload and
    schedules nothing when the decoding fails. *)
Definition decodedBuffers (sch : Schedule) (payloads : list string) : list AudioBuffer :=
  omap (λ base64,
          if truthyString base64 then
            match settle sch 0 _ (DecodeAudioData base64) with
            | inl audioBuffer => Some audioBuffer
            | inr _ => None
            end
          else None) payloads.

(** The buffers of the sources started, in the order of their starts. *)
Definition buffersOf (scheduled : list (SourceNode * Q)) : list AudioBuffer :=
  (λ p, sn_buffer p.1) <$> scheduled.

(** The schedule of [inner] in which, at every suspension of the running
    task, the component re-renders and [connectToLiveAPI] is called again
    and runs to its end. *)
Definition callingConnectAgain (inner : Schedule) : Schedule :=
  {| settle := settle inner;
     meanwhile := λ n s, final (run inner (connectToLiveAPI (commitRender s))) |}.

(** The operations the dispatcher recognises. *)
Definition recognizedOperations : list string :=
  ["execute_call"; "find_business_number"; "save_user_preference"].

(** The call carries the [args] object that the branch of its operation
    reads; an operation that is not recognised reads none. *)
Definition carriesArgs (fc : FunctionCall) : Prop :=
  fc_name fc ∈ recognizedOperations → is_Some (fc_args fc).

(** The value of [result] at the end of the loop body, by operation. *)
Definition resultFor (fc : FunctionCall) : JsObject :=
  if decide (fc_name fc = "execute_call") then
    [("status", JString "Call executed.");
     ("note", JString "You are now connected. ACT OUT the conversation audibly for the user.")]
  else if decide (fc_name fc = "find_business_number") then
    [("phoneNumber", JString "555-0199");
     ("businessName", arg fc "query");
     ("address", JString "123 Mock Lane")]
  else if decide (fc_name fc = "save_user_preference") then
    [("status", JString "Memory saved")]
  else
    [("result", JString "Success")].

Definition responseFor (fc : FunctionCall) : FunctionResponse :=
  {| fr_id := fc_id fc; fr_name := fc_name fc; fr_response := resultFor fc |}.

(** The preferences held by local storage. *)
Definition storedPreferences (ls : LocalStorage) : list JsVal :=
  match vox_memory ls with
  | Some memory => preferences memory
  | None => []
  end.

(** A [save_user_preference] request for [text]. *)
Definition savePreference (id text : string) : FunctionCall :=
  {| fc_id := id; fc_name := "save_user_preference";
     fc_args := Some {[ "preference" := JString text ]} |}.

(** Local storage with neither key set. *)
Definition emptyStorage : LocalStorage := {| vox_calls := None; vox_memory := None |}.

(** Calls of [updateMemory] with lists of texts, one after the other. *)
Definition updateMemoryAll (calls : list (Z * list string)) (ls : LocalStorage)
  : LocalStorage :=
  foldl (λ ls call, (updateMemory call.1 (JString <$> call.2) ls).2) ls calls.

End Vocabulary.
Export Vocabulary.

(** ** Concrete environments and schedules *)
Module Demo.

Definition env0 : Env :=
  {| randomId := λ n, "r"; localeTime := λ n, "t"; dateNow := λ n, 0%Z;
     currentTime := λ n, 0%Q; API_KEY := Some "k" |}.

Definition oneSecond : AudioBuffer := {| ab_length := 24000; ab_sampleRate := 24000 |}.

Definition settle0 (n : nat) (X : Type) (ev : Ev X) : X :=
  match ev in Ev X return X with
  | Timeout _ => tt
  | GetUserMedia => inl 0
  | DecodeAudioData _ => inl oneSecond
  end.

(** Every promise is fulfilled and no other handler runs in between. *)
Definition sch0 : Schedule := {| settle := settle0; meanwhile := λ n s, s |}.

(** Every promise is fulfilled and the component re-renders at each
    suspension. *)
Definition schRender : Schedule := {| settle := settle0; meanwhile := λ n s, commitRender s |}.

(** Every promise is fulfilled and the user presses End at each
    suspension. *)
Definition schStop : Schedule := {| settle := settle0; meanwhile := λ n s, stopAudio s |}.

(** The arguments of an [execute_call] request. *)
Definition callArgs : gmap string JsVal :=
  {[ "recipientName" := JString "Luigi's";
     "phoneNumber" := JString "555-0100";
     "objective" := JString "book a table" ]}.

Definition executeCall (id : string) : FunctionCall :=
  {| fc_id := id; fc_name := "execute_call"; fc_args := Some callArgs |}.

Definition findNumber (id : string) : FunctionCall :=
  {| fc_id := id; fc_name := "find_business_number";
     fc_args := Some {[ "query" := JString "Luigi's" ]} |}.

(** A [find_business_number] request that carries no [args]. *)
Definition findNumberWithoutArgs (id : string) : FunctionCall :=
  {| fc_id := id; fc_name := "find_business_number"; fc_args := None |}.

(** A session that is up: connected from a fresh mount, opened, its handle
    stored, and rendered. *)
Definition connected : State :=
  let s := final (run sch0 (connectToLiveAPI (mount env0))) in
  let s := onopen s in
  let s := sessionResolved (default 0 (last (connectLog s))) s in
  commitRender s.

End Demo.

(** ** Invariants of asynchronous functions *)
Module Invariants.

(** Every state the task hands over, at a suspension or at its end,
    satisfies [I], provided every state it is resumed with does. *)
Inductive maintains {A : Type} (I : State → Prop) : Task A → Prop :=
| maintains_done (a : A) (s : State) :
    I s → maintains I (Done a s)
| maintains_thrown (message : string) (s : State) :
    I s → maintains I (Thrown message s)
| maintains_await (X : Type) (ev : Ev X) (s : State) (k : X → State → Task A) :
    I s → (∀ x s', I s' → maintains I (k x s')) → maintains I (Await ev s k).

(** The other handlers keep [I]. *)
Definition respects (sch : Schedule) (I : State → Prop) : Prop :=
  ∀ n s, I s → I (meanwhile sch n s).

(** [I] is kept by each of the state updates [onmessage] is made of. *)
Record StepsKeep (I : State → Prop) : Prop := {
  keep_handleTranscription : ∀ message s, I s → I (handleTranscription message s);
  keep_handleTurnComplete : ∀ message s, I s → I (handleTurnComplete message s);
  keep_handleInterruption : ∀ message s, I s → I (handleInterruption message s);
  keep_addLog : ∀ message type s, I s → I (addLog message type s);
  keep_activeCallDetails : ∀ details s, I s → I (set_activeCallDetails details s);
  keep_agentState_IN_CALL : ∀ s, I s → I (set_agentState IN_CALL s);
  keep_isMicMuted : ∀ s, I s → I (set_isMicMuted true s);
  keep_saveCall : ∀ call s,
    I s → I (set_tick (S (tick s)) (set_localStorage (saveCall call (localStorage s)).2 s));
  keep_onCallComplete : ∀ s, I s → I (onCallComplete s);
  keep_updateMemory : ∀ now newPreferences s,
    I s →
    I (set_tick (S (tick s))
         (set_localStorage (updateMemory now newPreferences (localStorage s)).2 s));
  keep_sendToolResponse : ∀ functionResponses s, I s → I (sendToolResponse functionResponses s);
  keep_beginAudioOutput : ∀ s, I s → I (beginAudioOutput s);
  keep_scheduleSource : ∀ audioBuffer now s,
    I s → I (set_tick (S (tick s)) (scheduleSource audioBuffer now s))
}.

End Invariants.
Export Invariants.

(** ** The microphone side of the component

    [isMicMutedRef], the effect that copies [isMicMuted] into it, the
    [onaudioprocess] callback installed by [onopen], [toggleMute] and
    [handleTakeOver].  They are kept beside the component's [State]:
    [component] is the state of the rest, [renderedIsMicMuted] is the value
    of [isMicMuted] captured by the closures of the last render, and
    [realtimeInputLog] records the calls of [sendRealtimeInput]. *)
Module Capture.

(** The samples of one input buffer, and the blob made of them. *)
Definition Frame : Type := list Q.
Definition PcmBlob : Type := string.

Record Mic := {
  component : State;
  isMicMutedRef : bool;
  renderedIsMicMuted : bool;
  realtimeInputLog : list (Session * PcmBlob)
}.

(** An event of the rest of the component. *)
Definition onComponent (f : State → State) (m : Mic) : Mic :=
  {| component := f (component m);
     isMicMutedRef := isMicMutedRef m;
     renderedIsMicMuted := renderedIsMicMuted m;
     realtimeInputLog := realtimeInputLog m |}.

(** A render: the effects copy [agentState] and [isMicMuted] into their
    refs and the new closures capture them. *)
Definition render (m : Mic) : Mic :=
  {| component := commitRender (component m);
     isMicMutedRef := isMicMuted (component m);
     renderedIsMicMuted := isMicMuted (component m);
     realtimeInputLog := realtimeInputLog m |}.

(** [scriptProcessor.onaudioprocess]; [createPcmBlob] comes from the audio
    utilities, which are not part of the sources at hand. *)
Definition onaudioprocess (createPcmBlob : Frame → PcmBlob) (inputData : Frame)
    (m : Mic) : Mic :=
  match sessionRef (component m) with
  | None => m
  | Some session =>
      if isMicMutedRef m then m
      else {| component := component m;
              isMicMutedRef := isMicMutedRef m;
              renderedIsMicMuted := renderedIsMicMuted m;
              realtimeInputLog := realtimeInputLog m ++ [(session, createPcmBlob inputData)] |}
  end.

Definition toggleMute (m : Mic) : Mic :=
  let newState := negb (renderedIsMicMuted m) in
  onComponent
    (λ s, addLog (if newState then "Microphone Muted" else "Microphone Active") Info
            (set_isMicMuted newState s)) m.

Definition handleTakeOver (m : Mic) : Mic :=
  onComponent (λ s, addLog "User Taking Over - Mic Active" Alert (set_isMicMuted false s)) m.

(** The input buffers of [frames] captured one after the other. *)
Definition capture (createPcmBlob : Frame → PcmBlob) (frames : list Frame) (m : Mic) : Mic :=
  foldl (λ m inputData, onaudioprocess createPcmBlob inputData m) m frames.

(** A component freshly mounted, with its microphone side. *)
Definition mountMic (e : Env) : Mic :=
  {| component := mount e; isMicMutedRef := false; renderedIsMicMuted := false;
     realtimeInputLog := [] |}.

End Capture.
Export Capture.

(** ** src/components/Dashboard.tsx: the figures of the stats row *)
Module Dashboard.

#[global] Instance CallStatus_eq_dec : EqDecision CallStatus.
Proof. solve_decision. Defined.

Definition totalCalls (calls : list CallRecord) : nat := length calls.

Definition successful (calls : list CallRecord) : nat :=
  length (filter (λ c, cr_status c = completed) calls).

Definition knowledgeBits (memory : UserMemory) : nat := length (preferences memory).

End Dashboard.

(** ** Further vocabulary *)
Module Vocabulary2.

(** Calls saved one after the other. *)
Definition saveCalls (calls : list CallRecord) (ls : LocalStorage) : LocalStorage :=
  foldl (λ ls call, (saveCall call ls).2) ls calls.

(** A [save_user_preference] request whose [args] object holds no
    [preference]. *)
Definition savePreferenceWithoutText (id : string) : FunctionCall :=
  {| fc_id := id; fc_name := "save_user_preference"; fc_args := Some ∅ |}.

(** The active set holds no node twice and only nodes created so far. *)
Definition activeSetOk (s : State) : Prop :=
  NoDup (sn_handle <$> sourcesRef s)
  ∧ ∀ node, node ∈ sourcesRef s → sn_handle node < fresh s.

(** The record [execute_call] saves for the request [fc], with the
    readings [id] of [Math.random] and [now] of [Date.now]. *)
Definition callRecordFor (fc : FunctionCall) (id : string) (now : Z) : CallRecord :=
  {| cr_id := id;
     cr_timestamp := now;
     cr_recipient := arg fc "recipientName";
     cr_summary := "Called " +:+ toString (arg fc "phoneNumber")
                   +:+ ". Objective: " +:+ toString (arg fc "objective") +:+ ".";
     cr_status := completed;
     cr_context := Js.or (arg fc "callScript") (arg fc "objective") |}.

(** The state the [catch] block of [connectToLiveAPI] leaves. *)
Definition setupFailed (message : string) (s : State) : State :=
  set_agentState IDLE
    (set_isInitializingRef false
       (addLog ("Setup Error: " +:+ message) Error
          (set_error (Some (if truthyString message then message
                            else "Failed to start session")) s))).

End Vocabulary2.
Export Vocabulary2.

(** ** Further schedules *)
Module Demo2.

(** The microphone is refused; every other promise is fulfilled. *)
Definition settleDenied (n : nat) (X : Type) (ev : Ev X) : X :=
  match ev in Ev X return X with
  | Timeout _ => tt
  | GetUserMedia => inr "Permission denied"
  | DecodeAudioData _ => inl Demo.oneSecond
  end.

Definition schDenied : Schedule := {| settle := settleDenied; meanwhile := λ n s, s |}.

Definition blobOf (inputData : Frame) : PcmBlob := "pcm".

End Demo2.

(** * Transcript assembly *)
#[global] Arguments updateTranscript_updater : simpl never.

Section Transcript.

Lemma last_Some_snoc {A : Type} (l : list A) (x : A) :
  last l = Some x → l = removelast l ++ [x].
Proof.
  induction l as [|a l IH]; [done|].
  destruct l as [|b l]; simpl.
  - by intros [= ->].
  - intros H. f_equal. by apply IH.
Qed.

Lemma updater_length id now speaker text isFinal prev :
  length prev ≤ length (updateTranscript_updater id now speaker text isFinal prev).
Proof.
  unfold updateTranscript_updater.
  destruct (last prev) as [e|] eqn:Hlast; [|rewrite length_app; lia].
  destruct (_ && _); [|rewrite length_app; lia].
  rewrite (last_Some_snoc _ _ Hlast) at 1. rewrite !length_app. simpl. lia.
Qed.

Lemma updater_keeps id now speaker text isFinal prev i e :
  settledAt prev i e →
  settledAt (updateTranscript_updater id now speaker text isFinal prev) i e.
Proof.
  intros [Hi Hset].
  pose proof (updater_length id now speaker text isFinal prev) as Hlen.
  assert (i < length prev) as Hlt by (by eapply lookup_lt_Some).
  split; [|destruct Hset; [by left | right; lia]].
  unfold updateTranscript_updater.
  destruct (last prev) as [l|] eqn:Hlast; [|by rewrite lookup_app_l].
  destruct (bool_decide _ && negb _) eqn:Hpending; [|by rewrite lookup_app_l].
  apply andb_true_iff in Hpending as [_ Hnonfinal].
  apply negb_true_iff in Hnonfinal.
  pose proof (last_Some_snoc _ _ Hlast) as Hprev.
  set (r := removelast prev) in *.
  rewrite Hprev in Hi, Hset, Hlt. rewrite length_app in Hset, Hlt. simpl in *.
  destruct (decide (i < length r)) as [Hin|Hout].
  - rewrite lookup_app_l in Hi by done. by rewrite lookup_app_l.
  - assert (i = length r) as -> by lia.
    rewrite list_lookup_middle in Hi by done. injection Hi as <-.
    destruct Hset; [congruence | lia].
Qed.

(** C10.  An entry that is final, or that is no longer the last one, is
    left as it is, at its index, by every later sequence of transcript
    updates; an update that does not append replaces nothing but a last
    entry that is non-final and from the same speaker. *)
Theorem finalized_entries_are_immutable (calls : list UpdateCall)
    (prev : list TranscriptEntry) (i : nat) (e : TranscriptEntry) :
  prev !! i = Some e →
  te_isFinal e = true ∨ S i < length prev →
  applyUpdates calls prev !! i = Some e
  ∧ ∀ c, applyUpdate prev c = prev ++ [ {| te_id := uc_id c; te_speaker := uc_speaker c;
                                           te_text := uc_text c; te_timestamp := uc_now c;
                                           te_isFinal := uc_isFinal c |} ]
         ∨ ∃ l, last prev = Some l ∧ te_speaker l = uc_speaker c ∧ te_isFinal l = false
                ∧ applyUpdate prev c =
                  removelast prev ++ [ {| te_id := te_id l; te_speaker := te_speaker l;
                                          te_text := uc_text c; te_timestamp := uc_now c;
                                          te_isFinal := uc_isFinal c |} ].
Proof.
  intros Hi Hset. split.
  - assert (settledAt prev i e) as H by done. clear Hi Hset.
    revert prev H. induction calls as [|c calls IH]; intros prev H; simpl.
    + apply H.
    + apply IH, updater_keeps, H.
  - intros c. unfold applyUpdate, updateTranscript_updater.
    destruct (last prev) as [l|]; [|by left].
    destruct (bool_decide _ && negb _) eqn:Hpending; [|by left].
    apply andb_true_iff in Hpending as [Hsp Hnf].
    apply bool_decide_eq_true in Hsp. apply negb_true_iff in Hnf.
    right. by exists l.
Qed.

Lemma finalized_entries_are_immutable_witness :
  let prev := [ {| te_id := "a"; te_speaker := User; te_text := "hi";
                   te_timestamp := "t"; te_isFinal := true |} ] in
  let c := {| uc_id := "b"; uc_now := "u"; uc_speaker := User; uc_text := "again";
              uc_isFinal := false |} in
  applyUpdates [c; c] prev !! 0 = prev !! 0.
Proof.
  intros prev c.
  apply (finalized_entries_are_immutable [c; c] prev 0); [reflexivity | left; reflexivity].
Defined.


Lemma append_empty_r (a : string) : a +:+ "" = a.
Proof.
  induction a as [|c a IH]; [done|].
  change (String c (a +:+ "") = String c a). by rewrite IH.
Qed.

Lemma append_assoc (a b c : string) : (a +:+ b) +:+ c = a +:+ (b +:+ c).
Proof.
  induction a as [|x a IH]; [done|].
  change (String x ((a +:+ b) +:+ c) = String x (a +:+ (b +:+ c))). by rewrite IH.
Qed.

Lemma settledPart_snoc speaker base e :
  pendingOf speaker e = true → settledPart speaker (base ++ [e]) = base.
Proof.
  intros H. unfold settledPart. rewrite last_snoc, H. apply removelast_last.
Qed.

Lemma updater_shape id now speaker text isFinal prev :
  ∃ e, updateTranscript_updater id now speaker text isFinal prev
       = settledPart speaker prev ++ [e]
       ∧ te_speaker e = speaker ∧ te_text e = text ∧ te_isFinal e = isFinal.
Proof.
  unfold updateTranscript_updater, settledPart, pendingOf.
  destruct (last prev) as [l|]; [|by eexists].
  destruct (bool_decide _ && negb _) eqn:Hpending; [|by eexists].
  apply andb_true_iff in Hpending as [Hsp _]. apply bool_decide_eq_true in Hsp.
  by eexists.
Qed.

Lemma onmessage_synchronous message s :
  toolCall message = None → inlineData message = None →
  onmessage message s
  = Done tt (handleInterruption message (handleTurnComplete message
                                           (handleTranscription message s))).
Proof.
  intros Htool Haudio. unfold onmessage, handleToolCall, handleAudioOutput.
  rewrite Htool, Haudio. reflexivity.
Qed.

Lemma deliver_snoc sch messages message s :
  deliver sch (messages ++ [message]) s
  = final (run sch (onmessage message (deliver sch messages s))).
Proof. unfold deliver. by rewrite foldl_app. Qed.

Lemma deliver_cons sch message messages s :
  deliver sch (message :: messages) s
  = deliver sch messages (final (run sch (onmessage message s))).
Proof. reflexivity. Qed.

(** What one delta does to the state. *)
Lemma deliver_delta sch speaker text s :
  let s' := final (run sch (onmessage (delta speaker text) s)) in
  (∃ e, transcripts s' = settledPart speaker (transcripts s) ++ [e]
        ∧ te_speaker e = speaker ∧ te_text e = accumulator speaker s +:+ text
        ∧ te_isFinal e = false)
  ∧ accumulator speaker s' = accumulator speaker s +:+ text
  ∧ (∀ other, other ≠ speaker → accumulator other s' = accumulator other s)
  ∧ agentState s' = agentState s.
Proof.
  destruct speaker; simpl.
  - split; [apply updater_shape|]. split; [done|]. split; [|done].
    by intros [] ?.
  - split; [apply updater_shape|]. split; [done|]. split; [|done].
    by intros [] ?.
Qed.

Lemma truthyString_false (a : string) : truthyString a = false → a = "".
Proof.
  unfold truthyString. intros H. apply bool_decide_eq_false in H.
  by destruct (decide (a = "")).
Qed.

Lemma pendingOf_intro speaker e :
  te_speaker e = speaker → te_isFinal e = false → pendingOf speaker e = true.
Proof.
  intros Hsp Hnf. unfold pendingOf. rewrite Hnf. simpl.
  rewrite andb_true_r. by apply bool_decide_eq_true.
Qed.

(** Further deltas of the speaker whose pending entry is last keep that
    entry in its slot. *)
Lemma deliver_more_deltas sch speaker deltas : ∀ s base e,
  transcripts s = base ++ [e] →
  te_speaker e = speaker → te_isFinal e = false →
  te_text e = accumulator speaker s →
  let s' := deliver sch (delta speaker <$> deltas) s in
  (∃ e', transcripts s' = base ++ [e'] ∧ te_speaker e' = speaker
         ∧ te_isFinal e' = false ∧ te_text e' = accumulator speaker s')
  ∧ accumulator speaker s' = accumulator speaker s +:+ concatenation deltas
  ∧ ∀ other, other ≠ speaker → accumulator other s' = accumulator other s.
Proof.
  induction deltas as [|d deltas IH]; intros s base e Htr Hsp Hnf Htext.
  - simpl. rewrite append_empty_r. split; [by exists e|done].
  - rewrite fmap_cons, deliver_cons.
    destruct (deliver_delta sch speaker d s) as ((e1 & Htr1 & Hsp1 & Htext1 & Hnf1) & Hacc1 & Hother1 & _).
    rewrite Htr, settledPart_snoc in Htr1 by by apply pendingOf_intro.
    rewrite <- Hacc1 in Htext1.
    destruct (IH _ base e1 Htr1 Hsp1 Hnf1 Htext1) as (He' & Hacc' & Hother').
    split; [done|]. split.
    + rewrite Hacc', Hacc1. simpl. apply append_assoc.
    + intros other Hne. rewrite Hother', Hother1; done.
Qed.

(** A non-empty run of deltas of one speaker, from an empty accumulator. *)
Lemma deliver_deltas sch speaker deltas s :
  deltas ≠ [] → accumulator speaker s = "" →
  let s' := deliver sch (delta speaker <$> deltas) s in
  (∃ e, transcripts s' = settledPart speaker (transcripts s) ++ [e]
        ∧ te_speaker e = speaker ∧ te_isFinal e = false
        ∧ te_text e = accumulator speaker s')
  ∧ accumulator speaker s' = concatenation deltas
  ∧ ∀ other, other ≠ speaker → accumulator other s' = accumulator other s.
Proof.
  destruct deltas as [|d deltas]; [done|]. intros _ Hempty.
  rewrite fmap_cons, deliver_cons.
  destruct (deliver_delta sch speaker d s) as ((e1 & Htr1 & Hsp1 & Htext1 & Hnf1) & Hacc1 & Hother1 & _).
  rewrite <- Hacc1 in Htext1.
  destruct (deliver_more_deltas sch speaker deltas _ _ e1 Htr1 Hsp1 Hnf1 Htext1)
    as (He' & Hacc' & Hother').
  split; [done|]. split.
  - rewrite Hacc', Hacc1, Hempty. done.
  - intros other Hne. rewrite Hother', Hother1; done.
Qed.

(** The turn-complete signal when the pending entry of the only speaker of
    the turn is last. *)
Lemma deliver_turnComplete sch speaker s base e :
  transcripts s = base ++ [e] →
  te_speaker e = speaker → te_isFinal e = false →
  te_text e = accumulator speaker s →
  (∀ other, other ≠ speaker → accumulator other s = "") →
  let s' := final (run sch (onmessage turnCompleteMessage s)) in
  (∃ e', transcripts s' = base ++ [e'] ∧ te_speaker e' = speaker
         ∧ te_text e' = accumulator speaker s
         ∧ te_isFinal e' = truthyString (accumulator speaker s))
  ∧ currentInputTransRef s' = "" ∧ currentOutputTransRef s' = "".
Proof.
  intros Htr Hsp Hnf Htext Hother.
  pose proof (pendingOf_intro _ _ Hsp Hnf) as Hpending.
  change (final (run sch (onmessage turnCompleteMessage s)))
    with (handleTurnComplete turnCompleteMessage s).
  unfold handleTurnComplete. cbn.
  destruct speaker.
  - assert (currentOutputTransRef s = "") as Hout by (by apply (Hother Agent)).
    cbn in *.
    destruct (truthyString (currentInputTransRef s)) eqn:Htruthy; cbn;
      rewrite Hout; change (truthyString "") with false; cbn.
    + split; [|done].
      destruct (updater_shape (randomId (env s) (tick s)) (localeTime (env s) (tick s))
                  User (currentInputTransRef s) true (transcripts s))
        as (e' & -> & ? & ? & ?).
      rewrite Htr, settledPart_snoc by done. by exists e'.
    + apply truthyString_false in Htruthy.
      split; [|done]. exists e. by rewrite Htruthy in *.
  - assert (currentInputTransRef s = "") as Hin by (by apply (Hother User)).
    cbn in *. rewrite Hin. change (truthyString "") with false. cbn.
    destruct (truthyString (currentOutputTransRef s)) eqn:Htruthy; cbn.
    + split; [|done].
      destruct (updater_shape (randomId (env s) (tick s)) (localeTime (env s) (tick s))
                  Agent (currentOutputTransRef s) true (transcripts s))
        as (e' & -> & ? & ? & ?).
      rewrite Htr, settledPart_snoc by done. by exists e'.
    + apply truthyString_false in Htruthy.
      split; [|done]. exists e. by rewrite Htruthy in *.
Qed.

(** When the deltas of one speaker are the only transcription of a turn
    (both accumulators are empty when the first delta arrives and nothing
    but these deltas is delivered before the turn-complete signal), the
    transcript holds one entry for the turn: it takes the slot of a
    trailing non-final entry of the same speaker if there is one and is
    appended otherwise, every delta replaces it in place by the non-final
    text accumulated so far, and after the turn-complete signal its text
    is the concatenation of the deltas in arrival order; it is then final
    when that text is not empty, and both accumulators are empty again. *)
Lemma lone_speaker_turn_renders_one_entry (sch : Schedule) (speaker : Speaker)
    (deltas : list string) (s : State) :
  currentInputTransRef s = "" →
  currentOutputTransRef s = "" →
  deltas ≠ [] →
  (∀ k, 0 < k ≤ length deltas →
     ∃ e, transcripts (deliver sch (delta speaker <$> take k deltas) s)
          = settledPart speaker (transcripts s) ++ [e]
          ∧ te_speaker e = speaker
          ∧ te_text e = concatenation (take k deltas)
          ∧ te_isFinal e = false)
  ∧ let s' := deliver sch ((delta speaker <$> deltas) ++ [turnCompleteMessage]) s in
    (∃ e, transcripts s' = settledPart speaker (transcripts s) ++ [e]
          ∧ te_speaker e = speaker
          ∧ te_text e = concatenation deltas
          ∧ te_isFinal e = truthyString (concatenation deltas))
    ∧ currentInputTransRef s' = "" ∧ currentOutputTransRef s' = "".
Proof.
  intros Hin Hout Hne.
  assert (∀ sp, accumulator sp s = "") as Hempty by (by intros []).
  split.
  - intros k [Hk1 Hk2].
    assert (take k deltas ≠ []) as Hne'.
    { destruct deltas; [done|]. destruct k; [lia|done]. }
    destruct (deliver_deltas sch speaker (take k deltas) s Hne' (Hempty _))
      as ((e & Htr & Hsp & Hnf & Htext) & Hacc & _).
    exists e. by rewrite Htext, Hacc.
  - rewrite deliver_snoc.
    destruct (deliver_deltas sch speaker deltas s Hne (Hempty _))
      as ((e & Htr & Hsp & Hnf & Htext) & Hacc & Hother).
    destruct (deliver_turnComplete sch speaker _ _ e Htr Hsp Hnf Htext) as (He' & ? & ?).
    { intros other Hno. by rewrite Hother, Hempty. }
    rewrite Hacc in He'. done.
Qed.

Lemma deliver_app sch messages1 messages2 s :
  deliver sch (messages1 ++ messages2) s = deliver sch messages2 (deliver sch messages1 s).
Proof. unfold deliver. by rewrite foldl_app. Qed.

Lemma settledPart_other speaker base e :
  pendingOf speaker e = false → settledPart speaker (base ++ [e]) = base ++ [e].
Proof. intros H. unfold settledPart. by rewrite last_snoc, H. Qed.

Lemma truthy_concatenation deltas :
  truthyString (concatenation deltas) = true → deltas ≠ [].
Proof. by destruct deltas. Qed.

(** The turn-complete signal when both accumulators hold text and the
    last entry is the pending entry of the agent: each accumulator is
    rendered as a final entry of its own, after that entry. *)
Lemma deliver_turnComplete_both sch s :
  truthyString (currentInputTransRef s) = true →
  truthyString (currentOutputTransRef s) = true →
  (∃ base a, transcripts s = base ++ [a] ∧ te_speaker a = Agent) →
  let s' := final (run sch (onmessage turnCompleteMessage s)) in
  ∃ u2 a2, transcripts s' = transcripts s ++ [u2; a2]
    ∧ te_speaker u2 = User ∧ te_text u2 = currentInputTransRef s ∧ te_isFinal u2 = true
    ∧ te_speaker a2 = Agent ∧ te_text a2 = currentOutputTransRef s ∧ te_isFinal a2 = true.
Proof.
  intros Hin Hout (base & a & Htr & Hagent).
  change (final (run sch (onmessage turnCompleteMessage s)))
    with (handleTurnComplete turnCompleteMessage s).
  unfold handleTurnComplete. cbn [turnComplete turnCompleteMessage]. rewrite Hin.
  set (s1 := set_currentInputTransRef "" (updateTranscript User (currentInputTransRef s) true s)).
  change (currentOutputTransRef s1) with (currentOutputTransRef s). rewrite Hout.
  destruct (updater_shape (randomId (env s) (tick s)) (localeTime (env s) (tick s))
              User (currentInputTransRef s) true (transcripts s))
    as (u2 & Hu2 & Hsp2 & Htext2 & Hfin2).
  assert (transcripts s1
          = updateTranscript_updater (randomId (env s) (tick s)) (localeTime (env s) (tick s))
              User (currentInputTransRef s) true (transcripts s)) as Htr1 by reflexivity.
  rewrite Hu2, Htr, settledPart_other in Htr1
    by (unfold pendingOf; rewrite Hagent; by rewrite bool_decide_eq_false_2).
  destruct (updater_shape (randomId (env s1) (tick s1)) (localeTime (env s1) (tick s1))
              Agent (currentOutputTransRef s) true (transcripts s1))
    as (a2 & Ha2 & Hsp3 & Htext3 & Hfin3).
  exists u2, a2. split; [|done].
  etrans; [exact Ha2|].
  rewrite Htr1, settledPart_other by (unfold pendingOf; rewrite Hfin2; apply andb_false_r).
  by rewrite Htr, <- !app_assoc.
Qed.

(** C1 fails on the code.  In the ordinary turn, in which the user speaks,
    the agent answers and the turn completes, each speaker ends with two
    entries for the turn: when the turn completes the pending entry of the
    user is no longer last and the pending entry of the agent is followed
    by the user's final one, so [updateTranscript] appends the final text
    of each speaker as a new entry and the non-final entries stay.  The
    text of each final entry is the concatenation of the speaker's deltas
    in arrival order. *)
Theorem ordinary_turn_duplicates_each_utterance (sch : Schedule)
    (userDeltas agentDeltas : list string) (s : State) :
  currentInputTransRef s = "" →
  currentOutputTransRef s = "" →
  truthyString (concatenation userDeltas) = true →
  truthyString (concatenation agentDeltas) = true →
  let s' := deliver sch ((inputDelta <$> userDeltas) ++ (outputDelta <$> agentDeltas)
                         ++ [turnCompleteMessage]) s in
  ∃ u1 a1 u2 a2,
    transcripts s' = settledPart User (transcripts s) ++ [u1; a1; u2; a2]
    ∧ (te_speaker u1, te_text u1, te_isFinal u1) = (User, concatenation userDeltas, false)
    ∧ (te_speaker a1, te_text a1, te_isFinal a1) = (Agent, concatenation agentDeltas, false)
    ∧ (te_speaker u2, te_text u2, te_isFinal u2) = (User, concatenation userDeltas, true)
    ∧ (te_speaker a2, te_text a2, te_isFinal a2) = (Agent, concatenation agentDeltas, true)
    ∧ length (entriesOf User [u1; a1; u2; a2]) = 2
    ∧ length (entriesOf Agent [u1; a1; u2; a2]) = 2.
Proof.
  intros Hin Hout Huser Hagent. cbn zeta. rewrite !deliver_app.
  destruct (deliver_deltas sch User userDeltas s (truthy_concatenation _ Huser) Hin)
    as ((u1 & Htr1 & Hsp1 & Hnf1 & Htext1) & Hacc1 & Hother1).
  change (delta User) with inputDelta in *.
  set (s1 := deliver sch (inputDelta <$> userDeltas) s) in *.
  assert (accumulator Agent s1 = "") as Hout1 by (by rewrite (Hother1 Agent)).
  destruct (deliver_deltas sch Agent agentDeltas s1 (truthy_concatenation _ Hagent) Hout1)
    as ((a1 & Htr2 & Hsp2 & Hnf2 & Htext2) & Hacc2 & Hother2).
  change (delta Agent) with outputDelta in *.
  set (s2 := deliver sch (outputDelta <$> agentDeltas) s1) in *.
  rewrite Htr1, settledPart_other in Htr2
    by (unfold pendingOf; rewrite Hsp1; by rewrite bool_decide_eq_false_2).
  assert (accumulator User s2 = concatenation userDeltas) as Hacc3
    by (by rewrite (Hother2 User)).
  cbn [accumulator] in *.
  destruct (deliver_turnComplete_both sch s2) as (u2 & a2 & Htr3 & Hu & Ht & Hf & Hu' & Ht' & Hf').
  { by rewrite Hacc3. } { by rewrite Hacc2. } { by eexists _, a1. }
  change (deliver sch [turnCompleteMessage] s2)
    with (final (run sch (onmessage turnCompleteMessage s2))).
  exists u1, a1, u2, a2. rewrite Htr3, Htr2, <- !app_assoc.
  split; [done|].
  rewrite Hsp1, Hnf1, Htext1, Hsp2, Hnf2, Htext2, Hu, Ht, Hf, Hu', Ht', Hf', Hacc1, Hacc2, Hacc3.
  repeat (split; [done|]).
  unfold entriesOf. rewrite !filter_cons, filter_nil.
  rewrite Hsp1, Hsp2, Hu, Hu'. by repeat case_decide.
Qed.

Lemma ordinary_turn_duplicates_each_utterance_witness :
  let s := mount Demo.env0 in
  let s' := deliver Demo.sch0 [inputDelta "hi"; outputDelta "hel"; outputDelta "lo";
                               turnCompleteMessage] s in
  currentInputTransRef s = "" ∧ currentOutputTransRef s = ""
  ∧ truthyString "hi" = true ∧ truthyString "hello" = true
  ∧ ∃ u1 a1 u2 a2,
      transcripts s' = [u1; a1; u2; a2]
      ∧ (te_speaker u1, te_text u1, te_isFinal u1) = (User, "hi", false)
      ∧ (te_speaker a1, te_text a1, te_isFinal a1) = (Agent, "hello", false)
      ∧ (te_speaker u2, te_text u2, te_isFinal u2) = (User, "hi", true)
      ∧ (te_speaker a2, te_text a2, te_isFinal a2) = (Agent, "hello", true)
      ∧ length (entriesOf User [u1; a1; u2; a2]) = 2
      ∧ length (entriesOf Agent [u1; a1; u2; a2]) = 2.
Proof.
  intros s s'. repeat (split; [reflexivity|]).
  exact (ordinary_turn_duplicates_each_utterance Demo.sch0 ["hi"] ["hel"; "lo"] s
           eq_refl eq_refl eq_refl eq_refl).
Defined.

(** The same turn from a fresh mount, computed: four entries are
    rendered, two of each speaker. *)
Lemma ordinary_turn_renders_two_entries_per_speaker :
  let s := deliver Demo.sch0 [inputDelta "hi"; outputDelta "hello"; turnCompleteMessage]
             (mount Demo.env0) in
  (λ e, (te_speaker e, te_text e, te_isFinal e)) <$> transcripts s
  = [(User, "hi", false); (Agent, "hello", false); (User, "hi", true); (Agent, "hello", true)]
  ∧ length (entriesOf User (transcripts s)) = 2
  ∧ length (entriesOf Agent (transcripts s)) = 2
  ∧ ¬ length (entriesOf User (transcripts s)) = 1.
Proof. vm_compute. repeat split; discriminate. Qed.

End Transcript.

(** * Playback scheduling and interruption *)
Section Playback.

Lemma duration_nonneg (b : AudioBuffer) : (0 <= duration b)%Q.
Proof. unfold duration, Qle. simpl. lia. Qed.

Lemma scheduleSource_log audioBuffer now s :
  startLog (scheduleSource audioBuffer now s)
  = startLog s ++ [({| sn_handle := fresh s; sn_buffer := audioBuffer |},
                    Qmax (nextStartTimeRef s) now)].
Proof. reflexivity. Qed.

Lemma scheduleSource_cursor audioBuffer now s :
  nextStartTimeRef (scheduleSource audioBuffer now s)
  = (Qmax (nextStartTimeRef s) now + duration audioBuffer)%Q.
Proof. reflexivity. Qed.

Lemma queuedSince_refl s : queuedSince (startLog s) s.
Proof.
  exists []. split; [by rewrite app_nil_r|]. split.
  - intros i j p q _ Hp. by rewrite lookup_nil in Hp.
  - intros p Hp. by apply not_elem_of_nil in Hp.
Qed.

Lemma queuedSince_frame base s s' :
  startLog s' = startLog s → nextStartTimeRef s' = nextStartTimeRef s →
  queuedSince base s → queuedSince base s'.
Proof.
  intros Hlog Hcur (scheduled & ? & ? & ?). exists scheduled.
  rewrite Hlog, Hcur. done.
Qed.

Lemma queuedSince_schedule base audioBuffer now s :
  queuedSince base s → queuedSince base (scheduleSource audioBuffer now s).
Proof.
  intros (scheduled & Hlog & Hchain & Hends).
  set (node := {| sn_handle := fresh s; sn_buffer := audioBuffer |}).
  set (t := Qmax (nextStartTimeRef s) now).
  assert (nextStartTimeRef s <= t)%Q as Hcur by apply Q.le_max_l.
  pose proof (duration_nonneg audioBuffer) as Hdur.
  exists (scheduled ++ [(node, t)]).
  rewrite scheduleSource_log, scheduleSource_cursor, Hlog, <- app_assoc.
  split; [done|]. split.
  - intros i j p q Hij Hp Hq.
    assert (j < length (scheduled ++ [(node, t)])) as Hj by (by eapply lookup_lt_Some).
    rewrite length_app in Hj. simpl in Hj.
    assert (i < length scheduled) as Hi by lia.
    rewrite lookup_app_l in Hp by done.
    destruct (decide (j < length scheduled)) as [Hin|Hout].
    + rewrite lookup_app_l in Hq by done. exact (Hchain i j p q Hij Hp Hq).
    + assert (j = length scheduled) as -> by lia.
      rewrite list_lookup_middle in Hq by done. injection Hq as <-.
      unfold startOf. simpl.
      assert (endOf p <= nextStartTimeRef s)%Q by (eapply Hends, list_elem_of_lookup_2, Hp).
      lra.
  - intros p Hp. apply elem_of_app in Hp as [Hp|Hp].
    + apply Hends in Hp. fold t. lra.
    + apply list_elem_of_singleton in Hp as ->. unfold endOf. simpl. fold t. lra.
Qed.

(** What the delivery of an audio payload comes to. *)
Lemma deliver_audioMessage sch base64 s :
  final (run sch (onmessage (audioMessage base64) s))
  = if truthyString base64 then
      let s1 := meanwhile sch 0 (beginAudioOutput s) in
      match settle sch 0 _ (DecodeAudioData base64) with
      | inl audioBuffer =>
          set_tick (S (tick s1)) (scheduleSource audioBuffer (currentTime (env s1) (tick s1)) s1)
      | inr _ => s1
      end
    else s.
Proof.
  unfold onmessage, handleToolCall, handleAudioOutput, run. cbn.
  destruct (truthyString base64); [|reflexivity].
  async_simpl. cbn.
  destruct (settle sch 0 _ (DecodeAudioData base64)); reflexivity.
Qed.

Lemma beginAudioOutput_playback s :
  startLog (beginAudioOutput s) = startLog s
  ∧ nextStartTimeRef (beginAudioOutput s) = nextStartTimeRef s.
Proof. unfold beginAudioOutput. by case_match. Qed.

Lemma deliver_audio_queued sch base base64 s :
  (∀ n base s0, queuedSince base s0 → queuedSince base (meanwhile sch n s0)) →
  queuedSince base s →
  queuedSince base (final (run sch (onmessage (audioMessage base64) s))).
Proof.
  intros Hkeep Hq. rewrite deliver_audioMessage.
  destruct (truthyString base64); [|done]. cbn zeta.
  assert (queuedSince base (meanwhile sch 0 (beginAudioOutput s))) as Hq1.
  { apply Hkeep. destruct (beginAudioOutput_playback s) as [Hlog' Hcur'].
    eapply queuedSince_frame; [| |exact Hq]; done. }
  destruct (settle sch 0 _ (DecodeAudioData base64)) as [audioBuffer|]; [|done].
  eapply queuedSince_frame; [| |eapply queuedSince_schedule, Hq1]; reflexivity.
Qed.

Lemma deliver_audio_all_queued sch base payloads : ∀ s,
  (∀ n base s0, queuedSince base s0 → queuedSince base (meanwhile sch n s0)) →
  queuedSince base s →
  queuedSince base (deliver sch (audioMessage <$> payloads) s).
Proof.
  induction payloads as [|base64 payloads IH]; intros s Hkeep Hq; [done|].
  rewrite fmap_cons, deliver_cons. by apply IH, deliver_audio_queued.
Qed.

(** Handlers that keep the sources queued only add to the start log. *)
Lemma queued_log_grows sch n s :
  (∀ n base s0, queuedSince base s0 → queuedSince base (meanwhile sch n s0)) →
  ∃ extra, startLog (meanwhile sch n s) = startLog s ++ extra.
Proof.
  intros Hkeep. destruct (Hkeep n (startLog s) s (queuedSince_refl s)) as (extra & Hlog & _).
  by exists extra.
Qed.

(** The start log after one audio payload: what the other handlers
    started while it was decoded, then its own source when it decoded. *)
Lemma deliver_audio_log sch base64 s :
  (∀ n base s0, queuedSince base s0 → queuedSince base (meanwhile sch n s0)) →
  ∃ extra, startLog (meanwhile sch 0 (beginAudioOutput s)) = startLog s ++ extra
    ∧ ∃ own, buffersOf own = decodedBuffers sch [base64]
        ∧ startLog (final (run sch (onmessage (audioMessage base64) s)))
          = startLog s ++ (if truthyString base64 then extra else []) ++ own.
Proof.
  intros Hkeep.
  destruct (queued_log_grows sch 0 (beginAudioOutput s) Hkeep) as [extra Hextra].
  rewrite (proj1 (beginAudioOutput_playback s)) in Hextra.
  exists extra. split; [done|].
  rewrite deliver_audioMessage. unfold decodedBuffers. cbn [omap list_omap].
  destruct (truthyString base64); [|exists []; by rewrite !app_nil_r].
  cbn zeta.
  destruct (settle sch 0 _ (DecodeAudioData base64)) as [audioBuffer|].
  - set (s1 := meanwhile sch 0 (beginAudioOutput s)) in *.
    exists [({| sn_handle := fresh s1; sn_buffer := audioBuffer |},
             Qmax (nextStartTimeRef s1) (currentTime (env s1) (tick s1)))].
    split; [reflexivity|].
    etrans; [apply scheduleSource_log|]. by rewrite Hextra, <- app_assoc.
  - exists []. by rewrite app_nil_r.
Qed.

Lemma decodedBuffers_cons sch base64 payloads :
  decodedBuffers sch (base64 :: payloads)
  = decodedBuffers sch [base64] ++ decodedBuffers sch payloads.
Proof.
  unfold decodedBuffers. cbn [omap list_omap].
  destruct (truthyString base64); [|done].
  by destruct (settle sch 0 _ (DecodeAudioData base64)).
Qed.

(** Every payload that decodes has its buffer among the sources started,
    in the order of the payloads. *)
Lemma deliver_audio_sublist sch payloads : ∀ s base done scheduled0,
  (∀ n base s0, queuedSince base s0 → queuedSince base (meanwhile sch n s0)) →
  startLog s = base ++ scheduled0 →
  done `sublist_of` buffersOf scheduled0 →
  ∃ scheduled, startLog (deliver sch (audioMessage <$> payloads) s) = base ++ scheduled
    ∧ (done ++ decodedBuffers sch payloads) `sublist_of` buffersOf scheduled.
Proof.
  induction payloads as [|base64 payloads IH]; intros s base done scheduled0 Hkeep Hlog Hdone.
  - exists scheduled0. by rewrite app_nil_r.
  - rewrite fmap_cons, deliver_cons, decodedBuffers_cons, app_assoc.
    destruct (deliver_audio_log sch base64 s Hkeep) as (extra & _ & own & Hown & Hlog1).
    rewrite Hlog, <- app_assoc in Hlog1.
    eapply IH; [done|exact Hlog1|].
    unfold buffersOf. rewrite !fmap_app. fold (buffersOf own). rewrite Hown.
    apply sublist_app; [done|]. apply sublist_inserts_l. done.
Qed.

(** When the other handlers start nothing, the sources started are those
    of the payloads that decoded, one each. *)
Lemma deliver_audio_exact sch payloads : ∀ s,
  (∀ n base s0, queuedSince base s0 → queuedSince base (meanwhile sch n s0)) →
  (∀ n s0, startLog (meanwhile sch n s0) = startLog s0) →
  ∃ scheduled, startLog (deliver sch (audioMessage <$> payloads) s) = startLog s ++ scheduled
    ∧ buffersOf scheduled = decodedBuffers sch payloads.
Proof.
  induction payloads as [|base64 payloads IH]; intros s Hkeep Hquiet.
  - exists []. by rewrite app_nil_r.
  - rewrite fmap_cons, deliver_cons, decodedBuffers_cons.
    destruct (deliver_audio_log sch base64 s Hkeep) as (extra & Hextra & own & Hown & Hlog1).
    rewrite Hquiet, (proj1 (beginAudioOutput_playback s)) in Hextra.
    assert (extra = []) as -> by (apply (app_inv_head (startLog s)); by rewrite app_nil_r).
    assert (startLog (final (run sch (onmessage (audioMessage base64) s))) = startLog s ++ own)
      as Hlog2 by (rewrite Hlog1; by destruct (truthyString base64)).
    destruct (IH (final (run sch (onmessage (audioMessage base64) s))) Hkeep Hquiet)
      as (rest & Hrest & Hbuffers).
    exists (own ++ rest). rewrite Hrest, Hlog2, <- app_assoc. split; [done|].
    unfold buffersOf in *. by rewrite fmap_app, Hown, Hbuffers.
Qed.

(** C2.  The handler of an audio payload that decodes starts one source
    that carries the decoded buffer, at the maximum of the cursor and the
    playback clock as they are when the decoding is over, and leaves the
    cursor at that start plus the buffer's duration.  So, for every
    sequence of audio payloads delivered while the other handlers keep the
    sources queued (as handlers of further audio payloads do, and an
    interruption does not), every payload that decodes has its buffer
    among the sources started, in the order of the payloads, and the
    sources started are back to back: each ends at or before the start of
    every later one, in particular of the next one, and all end at or
    before the cursor.  When the other handlers start nothing, the sources
    started are exactly those of the payloads that decoded, one each. *)
Theorem scheduled_buffers_never_overlap (sch : Schedule) (payloads : list string)
    (s : State) :
  (∀ n base s0, queuedSince base s0 → queuedSince base (meanwhile sch n s0)) →
  (∀ base64 audioBuffer s0,
     truthyString base64 = true →
     settle sch 0 _ (DecodeAudioData base64) = inl audioBuffer →
     let s1 := meanwhile sch 0 (beginAudioOutput s0) in
     let start := Qmax (nextStartTimeRef s1) (currentTime (env s1) (tick s1)) in
     let s' := final (run sch (onmessage (audioMessage base64) s0)) in
     startLog s'
     = startLog s1 ++ [({| sn_handle := fresh s1; sn_buffer := audioBuffer |}, start)]
     ∧ nextStartTimeRef s' = (start + duration audioBuffer)%Q)
  ∧ let s' := deliver sch (audioMessage <$> payloads) s in
    ∃ scheduled, startLog s' = startLog s ++ scheduled
      ∧ decodedBuffers sch payloads `sublist_of` buffersOf scheduled
      ∧ (∀ i j p q, i < j → scheduled !! i = Some p → scheduled !! j = Some q →
           (startOf p + duration (sn_buffer p.1) <= startOf q)%Q)
      ∧ (∀ i p q, scheduled !! i = Some p → scheduled !! S i = Some q →
           (startOf p + duration (sn_buffer p.1) <= startOf q)%Q)
      ∧ (∀ p, p ∈ scheduled → (endOf p <= nextStartTimeRef s')%Q)
      ∧ ((∀ n s0, startLog (meanwhile sch n s0) = startLog s0) →
         buffersOf scheduled = decodedBuffers sch payloads
         ∧ length scheduled = length (decodedBuffers sch payloads)).
Proof.
  intros Hkeep. split.
  - intros base64 audioBuffer s0 Htruthy Hdecoded. cbn zeta.
    rewrite deliver_audioMessage, Htruthy. cbn zeta. rewrite Hdecoded.
    split; reflexivity.
  - cbn zeta.
    destruct (deliver_audio_all_queued sch (startLog s) payloads s Hkeep (queuedSince_refl s))
      as (scheduled & Hlog & Hchain & Hends).
    exists scheduled. split; [done|]. split.
    { destruct (deliver_audio_sublist sch payloads s (startLog s) [] [] Hkeep) as (l & Hl & Hsub).
      - by rewrite app_nil_r.
      - done.
      - rewrite Hlog in Hl. apply app_inv_head in Hl. by subst l. }
    split; [exact Hchain|]. split; [intros i p q; apply Hchain; lia|].
    split; [exact Hends|].
    intros Hquiet.
    destruct (deliver_audio_exact sch payloads s Hkeep Hquiet) as (l & Hl & Hbuffers).
    rewrite Hlog in Hl. apply app_inv_head in Hl. subst l.
    split; [done|]. rewrite <- Hbuffers. unfold buffersOf. by rewrite length_fmap.
Qed.

Lemma scheduled_buffers_never_overlap_witness :
  let s := mount Demo.env0 in
  let s1 := final (run Demo.sch0 (onmessage (audioMessage "AAAA") s)) in
  let s' := deliver Demo.sch0 (audioMessage <$> ["AAAA"; "BBBB"]) s in
  (∀ n base s0, queuedSince base s0 → queuedSince base (meanwhile Demo.sch0 n s0))
  ∧ (startLog s1 = [({| sn_handle := 0; sn_buffer := Demo.oneSecond |}, Qmax 0 0)]
     ∧ nextStartTimeRef s1 = (Qmax 0 0 + duration Demo.oneSecond)%Q)
  ∧ ∃ scheduled, startLog s' = scheduled
      ∧ (∀ i p q, scheduled !! i = Some p → scheduled !! S i = Some q →
           (startOf p + duration (sn_buffer p.1) <= startOf q)%Q)
      ∧ buffersOf scheduled = [Demo.oneSecond; Demo.oneSecond].
Proof.
  intros s s1 s'.
  assert (∀ n base s0, queuedSince base s0 → queuedSince base (meanwhile Demo.sch0 n s0))
    as Hkeep by (intros n base s0 H; exact H).
  split; [exact Hkeep|].
  destruct (scheduled_buffers_never_overlap Demo.sch0 ["AAAA"; "BBBB"] s Hkeep)
    as (Hone & scheduled & Hlog & _ & _ & Hnext & _ & Hexact).
  split; [exact (Hone "AAAA" Demo.oneSecond s eq_refl eq_refl)|].
  exists scheduled. split; [exact Hlog|]. split; [exact Hnext|].
  exact (proj1 (Hexact (λ n s0, eq_refl))).
Defined.

Lemma transcription_keeps_sources message s :
  sourcesRef (handleTurnComplete message (handleTranscription message s)) = sourcesRef s
  ∧ stopLog (handleTurnComplete message (handleTranscription message s)) = stopLog s.
Proof.
  unfold handleTurnComplete, handleTranscription. by repeat case_match.
Qed.

(** C3.  A message that signals an interruption stops every source of the
    active set, empties the set and puts the cursor at zero; a buffer
    scheduled next, at a clock reading that is not negative, starts at
    that reading, whatever the cursor was before the interruption. *)
Theorem interruption_resets_playback (sch : Schedule) (message : LiveServerMessage)
    (s : State) :
  interrupted message = true →
  toolCall message = None →
  inlineData message = None →
  let s1 := final (run sch (onmessage message s)) in
  stopLog s1 = stopLog s ++ sourcesRef s
  ∧ sourcesRef s1 = []
  ∧ nextStartTimeRef s1 = 0%Q
  ∧ ∀ audioBuffer now, (0 <= now)%Q →
      ∃ sourceNode t,
        startLog (scheduleSource audioBuffer now s1) = startLog s1 ++ [(sourceNode, t)]
        ∧ (t == now)%Q
        ∧ sourcesRef (scheduleSource audioBuffer now s1) = [sourceNode].
Proof.
  intros Hint Htool Haudio. rewrite onmessage_synchronous by done. cbn.
  destruct (transcription_keeps_sources message s) as [Hsrc Hstop].
  unfold handleInterruption. rewrite Hint. cbn.
  rewrite Hsrc, Hstop. repeat split.
  intros audioBuffer now Hnow. eexists _, _. split; [reflexivity|]. cbn.
  split; [by apply Q.max_r|]. done.
Qed.

Lemma interruption_resets_playback_witness :
  let s := deliver Demo.sch0 [audioMessage "AAAA"] (mount Demo.env0) in
  let s1 := final (run Demo.sch0 (onmessage interruptedMessage s)) in
  (nextStartTimeRef s == 1)%Q
  ∧ (0 <= 1 # 2)%Q
  ∧ stopLog s1 = sourcesRef s
  ∧ sourcesRef s1 = []
  ∧ nextStartTimeRef s1 = 0%Q
  ∧ ∃ sourceNode t,
      startLog (scheduleSource Demo.oneSecond (1 # 2) s1) = startLog s1 ++ [(sourceNode, t)]
      ∧ (t == 1 # 2)%Q
      ∧ sourcesRef (scheduleSource Demo.oneSecond (1 # 2) s1) = [sourceNode].
Proof.
  intros s s1. split; [reflexivity|]. split; [discriminate|].
  destruct (interruption_resets_playback Demo.sch0 interruptedMessage s
              eq_refl eq_refl eq_refl) as (H1 & H2 & H3 & H4).
  split; [exact H1|]. split; [exact H2|]. split; [exact H3|].
  apply (H4 Demo.oneSecond (1 # 2)%Q). discriminate.
Defined.

End Playback.

(** * The session state machine *)
Section Session.

Lemma addLog_appends message type s :
  logs (addLog message type s)
  = logs s ++ [ {| log_id := randomId (env s) (tick s);
                   log_time := localeTime (env s) (tick s);
                   log_message := message; log_type := type |} ].
Proof. reflexivity. Qed.

(** C4, as amended.  From any state [stopAudio] closes the two audio
    contexts it holds and forgets them, stops every source of the active
    set and empties the set, clears the active-call details and the
    initialisation flag and sets the agent state to [IDLE]; it leaves the
    playback cursor as it is (the next [connectToLiveAPI] sets the cursor
    to the clock of the playback context it opens).  It is a total
    function of the state, and a second call only adds its log line. *)
Theorem stopAudio_tears_down (s : State) :
  let s' := stopAudio s in
  audioContextRef s' = None
  ∧ inputContextRef s' = None
  ∧ closeLog s' = closeLog s ++ option_list (audioContextRef s)
                             ++ option_list (inputContextRef s)
  ∧ stopLog s' = stopLog s ++ sourcesRef s
  ∧ sourcesRef s' = []
  ∧ activeCallDetails s' = None
  ∧ isInitializingRef s' = false
  ∧ agentState s' = IDLE
  ∧ nextStartTimeRef s' = nextStartTimeRef s
  ∧ nextStartTimeRef (openContexts s') = currentTime (env s') (tick s')
  ∧ stopAudio s' = addLog "Session ended" Alert s'.
Proof.
  cbn zeta.
  destruct s as [? ? ? ? ? ? ? outCtx inCtx ? ? ? ? ? ? ? ? ? ? ? ? ? ? ? ? ?].
  destruct outCtx, inCtx; step_simpl; cbn [option_list];
    rewrite ?app_nil_r, <- ?app_assoc; repeat split; reflexivity.
Qed.

(** C4, as stated, fails: after a buffer of one second is scheduled the
    cursor stands at one second, and [stopAudio] does not reset it. *)
Lemma stopAudio_leaves_the_cursor :
  let s := deliver Demo.sch0 [audioMessage "AAAA"] Demo.connected in
  (nextStartTimeRef s == 1)%Q
  ∧ nextStartTimeRef (stopAudio s) = nextStartTimeRef s
  ∧ ¬ (nextStartTimeRef (stopAudio s) == 0)%Q.
Proof. vm_compute. repeat split; discriminate. Qed.

Lemma scheduleSource_agentState audioBuffer now s :
  agentState (scheduleSource audioBuffer now s) = agentState s.
Proof. reflexivity. Qed.

Lemma handleTurnComplete_agentState message s :
  agentState (handleTurnComplete message s)
  = if turnComplete message && truthyString (currentOutputTransRef s)
    then LISTENING else agentState s.
Proof.
  unfold handleTurnComplete.
  destruct (turnComplete message); [|done]. cbn.
  destruct (truthyString (currentInputTransRef s)); cbn;
    destruct (truthyString (currentOutputTransRef s)); done.
Qed.

(** C5, as amended.  An audio chunk sets the agent state to [SPEAKING]
    unless the rendered state ([agentStateRef]) is [IN_CALL], in which case
    it leaves the agent state as it is.  A turn completion sets the agent
    state to [LISTENING] when the agent's accumulator is not empty, from
    every state, [IN_CALL] included, and leaves it as it is when the
    accumulator is empty. *)
Theorem agentState_on_audio_and_turn_completion (sch : Schedule) (s : State) :
  (∀ base64,
     truthyString base64 = true →
     (∀ n s0, agentState (meanwhile sch n s0) = agentState s0) →
     agentState (final (run sch (onmessage (audioMessage base64) s)))
     = if decide (agentStateRef s = IN_CALL) then agentState s else SPEAKING)
  ∧ (∀ message,
       agentState (handleTurnComplete message s)
       = if turnComplete message && truthyString (currentOutputTransRef s)
         then LISTENING else agentState s)
  ∧ agentState (final (run sch (onmessage turnCompleteMessage s)))
    = if truthyString (currentOutputTransRef s) then LISTENING else agentState s.
Proof.
  split; [|split].
  - intros base64 Htruthy Hquiet. rewrite deliver_audioMessage, Htruthy. cbn zeta.
    assert (agentState (meanwhile sch 0 (beginAudioOutput s))
            = if decide (agentStateRef s = IN_CALL) then agentState s else SPEAKING) as <-.
    { rewrite Hquiet. unfold beginAudioOutput.
      destruct (decide (agentStateRef s = IN_CALL)) as [Heq|Hne].
      - by rewrite bool_decide_eq_false_2 by (by intros ?).
      - by rewrite bool_decide_eq_true_2. }
    by destruct (settle sch 0 _ (DecodeAudioData base64)).
  - intros message. apply handleTurnComplete_agentState.
  - change (final (run sch (onmessage turnCompleteMessage s)))
      with (handleTurnComplete turnCompleteMessage s).
    by rewrite handleTurnComplete_agentState.
Qed.

Lemma agentState_on_audio_and_turn_completion_witness :
  let s := deliver Demo.schRender [toolCallMessage [Demo.executeCall "c1"]] Demo.connected in
  truthyString "AAAA" = true
  ∧ (∀ n s0, agentState (meanwhile Demo.sch0 n s0) = agentState s0)
  ∧ agentStateRef s = IN_CALL
  ∧ agentState (final (run Demo.sch0 (onmessage (audioMessage "AAAA") s))) = IN_CALL.
Proof.
  intros s. split; [reflexivity|]. split; [reflexivity|]. split; [reflexivity|].
  exact (proj1 (agentState_on_audio_and_turn_completion Demo.sch0 s) "AAAA"
           eq_refl (λ n s0, eq_refl)).
Defined.

(** C5, as stated, fails on turn completion: during a simulated call the
    agent narrates, and the completion of that turn takes the agent state
    from [IN_CALL] to [LISTENING]. *)
Lemma turn_completion_ends_InCall :
  let s := deliver Demo.schRender
             [toolCallMessage [Demo.executeCall "c1"]; outputDelta "Hello, a table for two?"]
             Demo.connected in
  agentState s = IN_CALL
  ∧ agentStateRef s = IN_CALL
  ∧ agentState (final (run Demo.schRender (onmessage turnCompleteMessage s))) = LISTENING
  ∧ agentState (final (run Demo.schRender (onmessage turnCompleteMessage s))) ≠ IN_CALL.
Proof. vm_compute. repeat split; discriminate. Qed.

(** The state at which the first call of [connectToLiveAPI] suspends. *)
Lemma connectToLiveAPI_starts s :
  isInitializingRef s = false → renderedAgentState s = IDLE →
  missingKey (API_KEY (env s)) = false →
  ∃ s1 k,
    connectToLiveAPI s = Await GetUserMedia s1 k
    ∧ agentState s1 = CONNECTING
    ∧ isInitializingRef s1 = true
    ∧ connectLog s1 = connectLog s
    ∧ ∀ stream s', k (inl stream) s' = Done tt (liveConnect s').
Proof.
  intros Hinit Hidle Hkey. unfold connectToLiveAPI.
  rewrite Hinit, Hidle. cbn. async_simpl. cbn. rewrite Hkey. cbn. async_simpl.
  eexists _, _. split; [reflexivity|]. done.
Qed.

Lemma connectToLiveAPI_noop s :
  isInitializingRef s = true ∨ renderedAgentState s ≠ IDLE →
  connectToLiveAPI s = Done tt s.
Proof.
  intros [Hinit|Hstate]; unfold connectToLiveAPI.
  - by rewrite Hinit.
  - by rewrite (bool_decide_eq_true_2 _ Hstate), orb_true_r.
Qed.

(** C9.  [connectToLiveAPI] returns at once, leaving the state as it is,
    when an initialisation is in progress or the rendered agent state is
    not [IDLE].  When a call does start (and the microphone is granted),
    a further call made while the first one is suspended, before or after
    the component re-renders, changes nothing, the two calls together open
    exactly one session, and calls made afterwards, while the state is
    still [CONNECTING], change nothing either. *)
Theorem connect_twice_opens_one_session (inner : Schedule) (s : State) :
  (isInitializingRef s = true ∨ renderedAgentState s ≠ IDLE →
   connectToLiveAPI s = Done tt s)
  ∧ (isInitializingRef s = false →
     renderedAgentState s = IDLE →
     missingKey (API_KEY (env s)) = false →
     (∃ stream, settle inner 0 _ GetUserMedia = inl stream) →
     (∃ s1 k,
        connectToLiveAPI s = Await GetUserMedia s1 k
        ∧ agentState s1 = CONNECTING
        ∧ connectToLiveAPI s1 = Done tt s1
        ∧ connectToLiveAPI (commitRender s1) = Done tt (commitRender s1))
     ∧ let s2 := final (run (callingConnectAgain inner) (connectToLiveAPI s)) in
       (∃ session, connectLog s2 = connectLog s ++ [session])
       ∧ agentState s2 = CONNECTING
       ∧ connectToLiveAPI s2 = Done tt s2
       ∧ connectToLiveAPI (commitRender s2) = Done tt (commitRender s2)).
Proof.
  split; [apply connectToLiveAPI_noop|].
  intros Hinit Hidle Hkey [stream Hgranted].
  destruct (connectToLiveAPI_starts s Hinit Hidle Hkey)
    as (s1 & k & Hstart & Hstate & Hinit1 & Hlog & Hk).
  assert (connectToLiveAPI s1 = Done tt s1) as Hagain
    by (by apply connectToLiveAPI_noop; left).
  assert (connectToLiveAPI (commitRender s1) = Done tt (commitRender s1)) as Hagain'
    by (by apply connectToLiveAPI_noop; left).
  split; [by exists s1, k|].
  cbn zeta. rewrite Hstart. unfold run. cbn [runFrom callingConnectAgain settle meanwhile].
  rewrite Hagain', Hgranted. cbn [final runFrom]. rewrite Hk. cbn [runFrom final].
  split; [exists (fresh s1); by rewrite <- Hlog|]. split; [exact Hstate|].
  split; apply connectToLiveAPI_noop; by left.
Qed.

Lemma connect_twice_opens_one_session_witness :
  let s := mount Demo.env0 in
  isInitializingRef s = false
  ∧ renderedAgentState s = IDLE
  ∧ missingKey (API_KEY (env s)) = false
  ∧ (∃ stream, settle Demo.sch0 0 _ GetUserMedia = inl stream)
  ∧ ∃ session,
      connectLog (final (run (callingConnectAgain Demo.sch0) (connectToLiveAPI s)))
      = [] ++ [session].
Proof.
  intros s. split; [reflexivity|]. split; [reflexivity|]. split; [reflexivity|].
  split; [by exists 0|].
  exact (proj1 (proj2 (proj2 (connect_twice_opens_one_session Demo.sch0 s) eq_refl eq_refl
                         eq_refl (ex_intro _ 0 eq_refl)))).
Defined.

End Session.

(** * Tool dispatch and long-term memory *)
Section Tools.

Lemma runFrom_bind {A B : Type} (sch : Schedule) (t : Task A) (f : A → State → Task B) :
  ∀ n, ∃ n',
    runFrom sch n (Task_bind t f)
    = match runFrom sch n t with
      | Returned a s' => runFrom sch n' (f a s')
      | Rejected message s' => Rejected message s'
      end.
Proof.
  induction t as [a s|message s|X ev s k IH]; intros n; cbn.
  - by exists n.
  - by exists n.
  - apply IH.
Qed.

Lemma recognized_name (name : string) :
  name ∈ recognizedOperations
  ↔ name = "execute_call" ∨ name = "find_business_number" ∨ name = "save_user_preference".
Proof. unfold recognizedOperations. set_solver. Qed.

Lemma executeFunctionCall_returns sch fc s :
  carriesArgs fc →
  ∀ n, ∃ s', runFrom sch n (executeFunctionCall fc s) = Returned (resultFor fc) s'.
Proof.
  intros Hargs n. unfold executeFunctionCall, resultFor, requireArgs.
  repeat case_decide;
    try (destruct Hargs as [args ->]; [apply recognized_name; tauto|]);
    async_simpl; cbn [runFrom]; by eexists.
Qed.

(** A call of a recognised operation that carries no [args] makes the
    loop body throw before it has done anything. *)
Lemma executeFunctionCall_rejects sch fc s n :
  fc_name fc ∈ recognizedOperations → fc_args fc = None →
  runFrom sch n (executeFunctionCall fc s) = Rejected argsMissing s.
Proof.
  intros Hname Hnone. apply recognized_name in Hname.
  unfold executeFunctionCall, requireArgs. rewrite Hnone.
  repeat case_decide; try reflexivity. exfalso. tauto.
Qed.

(** The loop body sends nothing. *)
Lemma executeFunctionCall_sends_nothing sch fc s n :
  (∀ n s0, toolResponseLog (meanwhile sch n s0) = toolResponseLog s0) →
  toolResponseLog (final (runFrom sch n (executeFunctionCall fc s))) = toolResponseLog s.
Proof.
  intros Hquiet. unfold executeFunctionCall, requireArgs.
  repeat case_decide; try destruct (fc_args fc); async_simpl; cbn [runFrom final];
    try reflexivity;
    match goal with
    | |- context [meanwhile sch ?n ?s0] =>
        trans (toolResponseLog (meanwhile sch n s0)); [reflexivity|by rewrite Hquiet]
    end.
Qed.

Lemma executeFunctionCalls_returns sch functionCalls :
  Forall carriesArgs functionCalls →
  ∀ n functionResponses s, ∃ s',
    runFrom sch n (executeFunctionCalls functionCalls functionResponses s)
    = Returned (functionResponses ++ (responseFor <$> functionCalls)) s'.
Proof.
  induction 1 as [|fc rest Hfc _ IH]; intros n functionResponses s.
  - exists s. cbn. by rewrite app_nil_r.
  - cbn [executeFunctionCalls]. async_simpl.
    match goal with
    | |- ∃ _, runFrom _ _ (Task_bind ?t ?f) = _ =>
        destruct (runFrom_bind sch t f n) as [n' ->]
    end.
    destruct (executeFunctionCall_returns sch fc
                (addLog ("Executing: " +:+ fc_name fc) Info s) Hfc n) as [s1 ->].
    destruct (IH n' (functionResponses ++ [responseFor fc]) s1) as [s' Hrest].
    exists s'. unfold responseFor in Hrest at 1. cbn beta. rewrite Hrest.
    by rewrite fmap_cons, <- app_assoc.
Qed.

(** A batch that holds a call of a recognised operation without [args] is
    never run to its end: the loop is left by the exception, whatever the
    calls before it have done, and nothing has been sent. *)
Lemma executeFunctionCalls_rejects sch functionCalls :
  (∀ n s0, toolResponseLog (meanwhile sch n s0) = toolResponseLog s0) →
  Exists (λ fc, fc_name fc ∈ recognizedOperations ∧ fc_args fc = None) functionCalls →
  ∀ n functionResponses s, ∃ message s',
    runFrom sch n (executeFunctionCalls functionCalls functionResponses s) = Rejected message s'
    ∧ toolResponseLog s' = toolResponseLog s.
Proof.
  intros Hquiet. induction functionCalls as [|fc rest IH]; intros Hbad n functionResponses s.
  - by apply Exists_nil in Hbad.
  - cbn [executeFunctionCalls]. async_simpl.
    match goal with
    | |- ∃ _ _, runFrom _ _ (Task_bind ?t ?f) = _ ∧ _ =>
        destruct (runFrom_bind sch t f n) as [n' ->]
    end.
    set (s1 := addLog ("Executing: " +:+ fc_name fc) Info s).
    pose proof (executeFunctionCall_sends_nothing sch fc s1 n Hquiet) as Hlog.
    change (toolResponseLog s1) with (toolResponseLog s) in Hlog.
    destruct (runFrom sch n (executeFunctionCall fc s1)) as [result s2|message s2] eqn:Hrun.
    + apply Exists_cons in Hbad as [[Hname Hnone]|Hbad].
      { by rewrite executeFunctionCall_rejects in Hrun. }
      destruct (IH Hbad n' (functionResponses
                            ++ [ {| fr_id := fc_id fc; fr_name := fc_name fc;
                                    fr_response := result |} ]) s2)
        as (message & s' & -> & Hlog').
      exists message, s'. split; [done|]. by rewrite Hlog'.
    + by exists message, s2.
Qed.

(** For every tool-call batch whose calls of recognised operations carry
    their [args], under every schedule, the dispatcher hands to
    [sendToolResponse] exactly one response entry per request, in the
    order of the requests, each carrying the id and the name of its
    request; a request whose operation is not recognised gets the generic
    success result, with or without [args].  The batch is sent to the
    session that [sessionRef] holds. *)
Lemma tool_batch_gets_one_response_per_request (sch : Schedule)
    (functionCalls : list FunctionCall) (s : State) :
  Forall carriesArgs functionCalls →
  ∃ functionResponses s0,
    run sch (onmessage (toolCallMessage functionCalls) s)
    = Returned tt (sendToolResponse functionResponses s0)
    ∧ length functionResponses = length functionCalls
    ∧ fr_id <$> functionResponses = fc_id <$> functionCalls
    ∧ (∀ i fc, functionCalls !! i = Some fc →
         ∃ r, functionResponses !! i = Some r
              ∧ fr_id r = fc_id fc ∧ fr_name r = fc_name fc
              ∧ (fc_name fc ∉ recognizedOperations →
                 fr_response r = [("result", JString "Success")]))
    ∧ (∀ session, sessionRef s0 = Some session →
         toolResponseLog (sendToolResponse functionResponses s0)
         = toolResponseLog s0 ++ [(session, functionResponses)]).
Proof.
  intros Hargs.
  exists (responseFor <$> functionCalls).
  unfold run, onmessage, handleToolCall, handleAudioOutput. cbn. async_simpl.
  match goal with
  | |- ∃ _, runFrom _ _ (Task_bind ?t ?f) = _ ∧ _ =>
      destruct (runFrom_bind sch t f 0) as [n1 ->]
  end.
  match goal with
  | |- context [runFrom sch 0 (Task_bind ?t ?f)] =>
      destruct (runFrom_bind sch t f 0) as [n2 ->]
  end.
  match goal with
  | |- context [runFrom sch 0 (executeFunctionCalls ?calls ?acc ?s1)] =>
      destruct (executeFunctionCalls_returns sch calls Hargs 0 acc s1) as [s0 ->]
  end.
  cbn [runFrom app]. exists s0.
  unfold handleInterruption. cbn [interrupted toolCallMessage].
  split; [done|]. split; [by rewrite length_fmap|].
  split; [by rewrite <- list_fmap_compose|]. split.
  - intros i fc Hfc. exists (responseFor fc).
    rewrite list_lookup_fmap, Hfc. split; [done|]. split; [done|]. split; [done|].
    intros Hunknown. cbn. unfold resultFor, recognizedOperations in *.
    repeat case_decide; try done; exfalso; apply Hunknown; set_solver.
  - intros session Hsession. unfold sendToolResponse. by rewrite Hsession.
Qed.

(** C6 fails on the code.  A batch that holds a call of a recognised
    operation without an [args] object (which the type of a function call
    allows) gets no response at all: reading the arguments throws, no
    [try] surrounds the loop, the handler rejects, and [sendToolResponse]
    is never called, neither for that request nor for the requests of the
    batch that were executed before it.  The loop pushes an entry for
    every call it completes, and a call whose operation is not recognised
    is answered without its [args] being read. *)
Theorem tool_batch_with_argless_call_is_never_answered (sch : Schedule)
    (functionCalls : list FunctionCall) (s : State) :
  (∀ n s0, toolResponseLog (meanwhile sch n s0) = toolResponseLog s0) →
  Exists (λ fc, fc_name fc ∈ recognizedOperations ∧ fc_args fc = None) functionCalls →
  ∃ message s',
    run sch (onmessage (toolCallMessage functionCalls) s) = Rejected message s'
    ∧ toolResponseLog s' = toolResponseLog s.
Proof.
  intros Hquiet Hbad.
  unfold run, onmessage, handleToolCall, handleAudioOutput. cbn. async_simpl.
  match goal with
  | |- ∃ _ _, runFrom _ _ (Task_bind ?t ?f) = _ ∧ _ =>
      destruct (runFrom_bind sch t f 0) as [n1 ->]
  end.
  match goal with
  | |- context [runFrom sch 0 (Task_bind ?t ?f)] =>
      destruct (runFrom_bind sch t f 0) as [n2 ->]
  end.
  match goal with
  | |- context [runFrom sch 0 (executeFunctionCalls ?calls ?acc ?s1)] =>
      destruct (executeFunctionCalls_rejects sch calls Hquiet Hbad 0 acc s1)
        as (message & s' & -> & Hlog)
  end.
  exists message, s'. split; [done|]. by rewrite Hlog.
Qed.

Lemma tool_batch_with_argless_call_is_never_answered_witness :
  let batch := [savePreference "c1" "window seat"; Demo.findNumberWithoutArgs "c2"] in
  let o := run Demo.sch0 (onmessage (toolCallMessage batch) Demo.connected) in
  (∀ n s0, toolResponseLog (meanwhile Demo.sch0 n s0) = toolResponseLog s0)
  ∧ sessionRef Demo.connected = Some 2
  ∧ (∃ message s', o = Rejected message s' ∧ toolResponseLog s' = [])
  ∧ storedPreferences (localStorage (final o)) = [JString "window seat"].
Proof.
  intros batch o.
  split; [reflexivity|]. split; [reflexivity|]. split.
  - apply (tool_batch_with_argless_call_is_never_answered Demo.sch0 batch Demo.connected);
      [reflexivity|].
    apply Exists_cons_tl, Exists_cons_hd.
    split; [apply list_elem_of_further, list_elem_of_here|reflexivity].
  - vm_compute. reflexivity.
Defined.

(** [stopAudio] neither closes the session nor clears the ref that holds
    it. *)
Lemma stopAudio_keeps_session s : sessionRef (stopAudio s) = sessionRef s.
Proof.
  destruct s as [? ? ? ? ? ? ? outCtx inCtx ? ? ? ? ? ? ? ? ? ? ? ? ? ? ? ? ?].
  by destruct outCtx, inCtx.
Qed.

(** C7 fails on the code.  The session is up, a [find_business_number]
    request arrives, and End is pressed during the simulated search delay:
    [stopAudio] runs, the agent state is [IDLE], and when the delay is over
    the batched response is still sent to the session that was stopped. *)
Theorem late_tool_response_reaches_stopped_session :
  let s := Demo.connected in
  let s' := final (run Demo.schStop (onmessage (toolCallMessage [Demo.findNumber "c1"]) s)) in
  sessionRef s = Some 2
  ∧ connectLog s = [2]
  ∧ agentState s' = IDLE
  ∧ audioContextRef s' = None
  ∧ toolResponseLog s'
    = [(2, [ {| fr_id := "c1"; fr_name := "find_business_number";
                fr_response := [("phoneNumber", JString "555-0199");
                                ("businessName", JString "Luigi's");
                                ("address", JString "123 Mock Lane")] |} ])].
Proof. vm_compute. repeat split. Qed.

(** ** Long-term memory *)

Lemma foldl_setAdd_NoDup (xs seen : list JsVal) :
  NoDup seen → NoDup (foldl setAdd seen xs).
Proof.
  revert seen. induction xs as [|x xs IH]; intros seen Hseen; [done|].
  cbn. apply IH. unfold setAdd. case_decide; [done|].
  apply NoDup_app. split; [done|]. split; [|apply NoDup_singleton].
  intros y Hy ->%list_elem_of_singleton. done.
Qed.

Lemma elem_of_foldl_setAdd (xs seen : list JsVal) (x : JsVal) :
  x ∈ foldl setAdd seen xs ↔ x ∈ seen ∨ x ∈ xs.
Proof.
  revert seen. induction xs as [|y xs IH]; intros seen; cbn.
  - set_solver.
  - rewrite IH. unfold setAdd. case_decide; set_solver.
Qed.

Lemma foldl_setAdd_fresh (xs seen : list JsVal) :
  NoDup (seen ++ xs) → foldl setAdd seen xs = seen ++ xs.
Proof.
  revert seen. induction xs as [|x xs IH]; intros seen Hnd; cbn.
  - by rewrite app_nil_r.
  - assert (x ∉ seen) as Hx.
    { apply NoDup_app in Hnd as (_ & Hdisj & _). intros Hin. apply (Hdisj x Hin). set_solver. }
    unfold setAdd. rewrite decide_False by done.
    rewrite IH; rewrite <- app_assoc; done.
Qed.

Lemma arrayFromSet_NoDup xs : NoDup (arrayFromSet xs).
Proof. apply foldl_setAdd_NoDup, NoDup_nil_2. Qed.

Lemma elem_of_arrayFromSet xs x : x ∈ arrayFromSet xs ↔ x ∈ xs.
Proof. unfold arrayFromSet. rewrite elem_of_foldl_setAdd. set_solver. Qed.

Lemma occurs_never (l : list JsVal) (x : JsVal) :
  x ∉ l → filter (λ v, v = x) l = [].
Proof.
  induction l as [|y l IH]; intros Hx; [done|].
  rewrite filter_cons_False by set_solver. apply IH. set_solver.
Qed.

Lemma occurs_once (l : list JsVal) (x : JsVal) :
  NoDup l → x ∈ l → length (filter (λ v, v = x) l) = 1.
Proof.
  induction 1 as [|y l Hy Hnd IH]; intros Hx; [by apply not_elem_of_nil in Hx|].
  destruct (decide (y = x)) as [->|Hne].
  - rewrite filter_cons_True by done. by rewrite occurs_never.
  - rewrite filter_cons_False by done. apply IH. set_solver.
Qed.

Lemma jsonArrayItem_text (v : JsVal) (text : string) :
  jsonArrayItem v = JString text ↔ v = JString text.
Proof. by destruct v. Qed.

Lemma occurrences_after_json (l : list JsVal) (text : string) :
  filter (λ v, v = JString text) (jsonArrayItem <$> l)
  = jsonArrayItem <$> filter (λ v, v = JString text) l.
Proof.
  induction l as [|v l IH]; [done|]. rewrite fmap_cons.
  destruct (decide (v = JString text)) as [->|Hne].
  - rewrite !filter_cons_True by done. by rewrite fmap_cons, IH.
  - rewrite !filter_cons_False by (by rewrite ?jsonArrayItem_text). done.
Qed.

(** After [updateMemory] with a list that holds [text], local storage
    holds [text] once. *)
Lemma updateMemory_stores_once now newPreferences ls text :
  JString text ∈ newPreferences →
  length (filter (λ v, v = JString text)
            (storedPreferences (updateMemory now newPreferences ls).2)) = 1.
Proof.
  intros Hin. cbn. rewrite occurrences_after_json, length_fmap.
  apply occurs_once; [apply arrayFromSet_NoDup|].
  apply elem_of_arrayFromSet. set_solver.
Qed.

(** What a [save_user_preference] request does to local storage. *)
Lemma save_preference_storage sch id text s :
  localStorage (final (run sch (onmessage (toolCallMessage [savePreference id text]) s)))
  = (updateMemory (dateNow (env s) (S (S (tick s)))) [JString text] (localStorage s)).2.
Proof.
  unfold run, onmessage, handleToolCall, handleAudioOutput.
  cbn [toolCall toolCallMessage inlineData executeFunctionCalls].
  unfold executeFunctionCall.
  cbn [fc_name savePreference].
  rewrite (decide_False (P := "save_user_preference" = "execute_call")) by done.
  rewrite (decide_False (P := "save_user_preference" = "find_business_number")) by done.
  rewrite (decide_True (P := "save_user_preference" = "save_user_preference")) by done.
  async_simpl. cbn [runFrom final].
  unfold arg.
  change (fc_args (savePreference id text))
    with (Some ({[ "preference" := JString text ]} : gmap string JsVal)).
  cbn [mbind option_bind]. rewrite lookup_singleton_eq. cbn [default].
  change (handleTurnComplete (toolCallMessage [savePreference id text])
            (handleTranscription (toolCallMessage [savePreference id text]) s)) with s.
  unfold handleInterruption. cbn [interrupted toolCallMessage].
  destruct s as [? ? ? ? ? ? ? ? ? ? ? session ? ? ? ? ? ? ? ? ? ? ? ? ? ?].
  destruct session; step_simpl; reflexivity.
Qed.

Lemma stored_after_updateMemory now newPreferences ls :
  storedPreferences (updateMemory now newPreferences ls).2
  = jsonArrayItem <$> arrayFromSet (storedPreferences ls ++ newPreferences).
Proof. unfold updateMemory, getMemory, storedPreferences. cbn. by destruct (vox_memory ls). Qed.

Lemma texts_survive_json (l : list JsVal) :
  Forall (λ v, ∃ text, v = JString text) l → jsonArrayItem <$> l = l.
Proof.
  induction 1 as [|v l [text ->] _ IH]; [done|]. by rewrite fmap_cons, IH.
Qed.

Lemma arrayFromSet_texts (l : list JsVal) :
  Forall (λ v, ∃ text, v = JString text) l →
  Forall (λ v, ∃ text, v = JString text) (arrayFromSet l).
Proof.
  rewrite !Forall_forall. intros Hl v Hv. by apply Hl, elem_of_arrayFromSet.
Qed.

Lemma injected_texts (texts : list string) :
  Forall (λ v, ∃ text, v = JString text) (JString <$> texts).
Proof. apply Forall_fmap, Forall_true. intros text. by exists text. Qed.

Lemma updateMemory_keeps_texts now texts ls :
  Forall (λ v, ∃ text, v = JString text) (storedPreferences ls) →
  let stored := storedPreferences (updateMemory now (JString <$> texts) ls).2 in
  stored = arrayFromSet (storedPreferences ls ++ (JString <$> texts))
  ∧ NoDup stored
  ∧ Forall (λ v, ∃ text, v = JString text) stored.
Proof.
  intros Htexts. cbn zeta. rewrite stored_after_updateMemory.
  assert (Forall (λ v, ∃ text, v = JString text)
            (arrayFromSet (storedPreferences ls ++ (JString <$> texts)))) as Hall.
  { apply arrayFromSet_texts, Forall_app. split; [done|apply injected_texts]. }
  rewrite texts_survive_json by done.
  split; [done|]. split; [apply arrayFromSet_NoDup|done].
Qed.

Lemma updateMemoryAll_keeps_texts calls : ∀ ls,
  NoDup (storedPreferences ls) →
  Forall (λ v, ∃ text, v = JString text) (storedPreferences ls) →
  NoDup (storedPreferences (updateMemoryAll calls ls))
  ∧ Forall (λ v, ∃ text, v = JString text) (storedPreferences (updateMemoryAll calls ls)).
Proof.
  induction calls as [|[now texts] calls IH]; intros ls Hnd Htexts; [done|].
  destruct (updateMemory_keeps_texts now texts ls Htexts) as (_ & Hnd' & Htexts').
  exact (IH _ Hnd' Htexts').
Qed.

(** C8.  Two [save_user_preference] requests with the same text, from any
    state, leave exactly one copy of that text in the stored preferences.
    The list [updateMemory] builds never holds a value twice; after any
    sequence of [updateMemory] calls with texts, from an empty local
    storage, the stored list holds no duplicates, and saving a text again
    leaves the stored list as it is. *)
Theorem saved_preferences_are_unique (sch : Schedule) (s : State) (id1 id2 text : string)
    (calls : list (Z * list string)) :
  length (filter (λ v, v = JString text)
            (storedPreferences
               (localStorage
                  (deliver sch [toolCallMessage [savePreference id1 text];
                                toolCallMessage [savePreference id2 text]] s)))) = 1
  ∧ (∀ now newPreferences ls, NoDup (preferences (updateMemory now newPreferences ls).1))
  ∧ NoDup (storedPreferences (updateMemoryAll calls emptyStorage))
  ∧ ∀ now1 now2,
      let once := (updateMemory now1 [JString text] (updateMemoryAll calls emptyStorage)).2 in
      storedPreferences (updateMemory now2 [JString text] once).2 = storedPreferences once.
Proof.
  split; [|split; [|split]].
  - unfold deliver. cbn [foldl]. rewrite save_preference_storage.
    apply updateMemory_stores_once. set_solver.
  - intros now newPreferences ls. apply arrayFromSet_NoDup.
  - apply updateMemoryAll_keeps_texts; [apply NoDup_nil_2|apply Forall_nil_2].
  - intros now1 now2. cbn zeta.
    destruct (updateMemoryAll_keeps_texts calls emptyStorage)
      as [Hnd Htexts]; [apply NoDup_nil_2|apply Forall_nil_2|].
    destruct (updateMemory_keeps_texts now1 [text] _ Htexts) as (Hstored & Hnd1 & Htexts1).
    destruct (updateMemory_keeps_texts now2 [text] _ Htexts1) as (Hagain & _ & _).
    cbn [fmap list_fmap] in *. rewrite Hagain.
    unfold arrayFromSet. rewrite foldl_app. cbn [foldl].
    rewrite (foldl_setAdd_fresh _ []) by (by rewrite app_nil_l). rewrite app_nil_l.
    unfold setAdd. rewrite decide_True; [done|].
    rewrite Hstored. apply elem_of_arrayFromSet. set_solver.
Qed.

End Tools.

(** * The storage service *)
Section Storage.

(** X1.  The call history is kept most recent first: after calls are
    saved one after the other, [getCalls] returns them in reverse order of
    saving, ahead of the calls that were stored before; the value
    [saveCall] returns is the history it stored; the stored memory is left
    alone; and after [clearHistory] the history is empty. *)
Theorem call_history_is_most_recent_first (calls : list CallRecord) (ls : LocalStorage) :
  getCalls (saveCalls calls ls) = reverse calls ++ getCalls ls
  ∧ vox_memory (saveCalls calls ls) = vox_memory ls
  ∧ (∀ call, (saveCall call ls).1 = getCalls (saveCall call ls).2)
  ∧ getCalls (saveCalls calls (clearHistory ls)) = reverse calls.
Proof.
  assert (∀ ls0, getCalls (saveCalls calls ls0) = reverse calls ++ getCalls ls0
                 ∧ vox_memory (saveCalls calls ls0) = vox_memory ls0) as H.
  { induction calls as [|call calls IH]; intros ls0; [done|].
    unfold saveCalls in *. cbn [foldl]. destruct (IH (saveCall call ls0).2) as [-> ->].
    split; [|done]. rewrite reverse_cons, <- app_assoc. done. }
  destruct (H ls) as [-> ->]. split; [done|]. split; [done|]. split; [done|].
  destruct (H (clearHistory ls)) as [-> _]. apply app_nil_r.
Qed.

Lemma foldl_setAdd_extends (xs seen : list JsVal) :
  ∃ added, foldl setAdd seen xs = seen ++ added
    ∧ (∀ v, v ∈ added ↔ v ∈ xs ∧ v ∉ seen)
    ∧ (NoDup seen → NoDup (seen ++ added)).
Proof.
  revert seen. induction xs as [|x xs IH]; intros seen.
  - exists []. rewrite app_nil_r. split; [done|]. split; [|done].
    intros v. split; [by intros ?%not_elem_of_nil|]. by intros [?%not_elem_of_nil _].
  - cbn [foldl]. destruct (IH (setAdd seen x)) as (added & Heq & Hin & Hnd).
    unfold setAdd in *. case_decide as Hx.
    + exists added. split; [done|]. split; [|done].
      intros v. rewrite Hin, elem_of_cons. split; [naive_solver|].
      intros [[->|Hv] Hnot]; [done|by split].
    + exists (x :: added). rewrite <- app_assoc in Heq. split; [done|]. split.
      * intros v. rewrite elem_of_cons, Hin, elem_of_app, list_elem_of_singleton, elem_of_cons.
        split.
        -- intros [->|[Hv Hnot]]; [by split; [left|]|]. split; [by right|]. naive_solver.
        -- intros [[->|Hv] Hnot]; [by left|]. destruct (decide (v = x)) as [->|Hne]; [by left|].
           right. split; [done|]. naive_solver.
      * intros Hseen. rewrite <- app_assoc in Hnd. apply Hnd.
        apply NoDup_app. split; [done|]. split; [|apply NoDup_singleton].
        intros y Hy ->%list_elem_of_singleton. done.
Qed.

(** X2.  [updateMemory] merges in order: on a stored list of distinct
    texts, the stored list afterwards is the old list followed by the new
    texts that were not stored yet, each once; nothing else is added and
    nothing is lost.  The time of the call is recorded, the value returned
    is what [getMemory] reads back, and the call history is left alone. *)
Theorem updateMemory_appends_what_is_new (now : Z) (texts : list string) (ls : LocalStorage) :
  NoDup (storedPreferences ls) →
  Forall (λ v, ∃ text, v = JString text) (storedPreferences ls) →
  let result := updateMemory now (JString <$> texts) ls in
  (∃ added,
     storedPreferences result.2 = storedPreferences ls ++ added
     ∧ NoDup added
     ∧ ∀ v, v ∈ added ↔ v ∈ (JString <$> texts) ∧ v ∉ storedPreferences ls)
  ∧ (∀ later, getMemory later result.2 = result.1)
  ∧ lastInteraction result.1 = now
  ∧ vox_calls result.2 = vox_calls ls.
Proof.
  intros Hnd Htexts. cbn zeta.
  destruct (updateMemory_keeps_texts now texts ls Htexts) as (Hstored & Hnd' & Htexts').
  split; [|split; [|done]].
  - rewrite Hstored. unfold arrayFromSet. rewrite foldl_app.
    rewrite (foldl_setAdd_fresh _ []) by (by rewrite app_nil_l). rewrite app_nil_l.
    destruct (foldl_setAdd_extends (JString <$> texts) (storedPreferences ls))
      as (added & -> & Hin & Hnda).
    exists added. split; [done|]. split; [|done].
    by apply Hnda, NoDup_app in Hnd as (_ & _ & ?).
  - intros later. rewrite stored_after_updateMemory in Hstored.
    unfold updateMemory, getMemory. cbn. f_equal.
    replace (preferences match vox_memory ls with
                         | Some stored => stored
                         | None => {| preferences := []; lastInteraction := now |}
                         end) with (storedPreferences ls)
      by (unfold storedPreferences; by destruct (vox_memory ls)).
    exact Hstored.
Qed.

Lemma updateMemory_appends_what_is_new_witness :
  let result := updateMemory 5 (JString <$> ["tea"; "tea"; "window seat"]) emptyStorage in
  NoDup (storedPreferences emptyStorage)
  ∧ Forall (λ v, ∃ text, v = JString text) (storedPreferences emptyStorage)
  ∧ ∃ added,
      storedPreferences result.2 = [] ++ added
      ∧ NoDup added
      ∧ ∀ v, v ∈ added ↔ v ∈ (JString <$> ["tea"; "tea"; "window seat"]) ∧ v ∉ [].
Proof.
  intros result. split; [apply NoDup_nil_2|]. split; [apply Forall_nil_2|].
  exact (proj1 (updateMemory_appends_what_is_new 5 ["tea"; "tea"; "window seat"] emptyStorage
                  (NoDup_nil_2) (Forall_nil_2 _))).
Defined.

(** What a [save_user_preference] request does to local storage, whatever
    its arguments. *)
Lemma save_request_storage sch fc s :
  fc_name fc = "save_user_preference" →
  is_Some (fc_args fc) →
  localStorage (final (run sch (onmessage (toolCallMessage [fc]) s)))
  = (updateMemory (dateNow (env s) (S (S (tick s)))) [arg fc "preference"] (localStorage s)).2.
Proof.
  intros Hname Hargs.
  unfold run, onmessage, handleToolCall, handleAudioOutput.
  cbn [toolCall toolCallMessage inlineData executeFunctionCalls].
  unfold executeFunctionCall, requireArgs. rewrite Hname.
  destruct Hargs as [args Hargs]. rewrite Hargs.
  rewrite (decide_False (P := "save_user_preference" = "execute_call")) by done.
  rewrite (decide_False (P := "save_user_preference" = "find_business_number")) by done.
  rewrite (decide_True (P := "save_user_preference" = "save_user_preference")) by done.
  async_simpl. cbn [runFrom final].
  change (handleTurnComplete (toolCallMessage [fc])
            (handleTranscription (toolCallMessage [fc]) s)) with s.
  unfold handleInterruption. cbn [interrupted toolCallMessage].
  generalize (arg fc "preference") as preference. intros preference.
  generalize (fc_id fc) as id. intros id.
  destruct s as [? ? ? ? ? ? ? ? ? ? ? session ? ? ? ? ? ? ? ? ? ? ? ? ? ?].
  destruct session; step_simpl; reflexivity.
Qed.

Lemma json_never_undefined (l : list JsVal) : JUndefined ∉ jsonArrayItem <$> l.
Proof. intros (v & Hv & _)%list_elem_of_fmap. by destruct v. Qed.

Lemma nulls_after_json (l : list JsVal) :
  JUndefined ∉ l →
  filter (λ v, v = JNull) (jsonArrayItem <$> l) = filter (λ v, v = JNull) l.
Proof.
  induction l as [|v l IH]; intros Hnot; [done|]. rewrite fmap_cons.
  assert (JUndefined ∉ l) by set_solver.
  destruct v as [| |text].
  - exfalso. apply Hnot. by left.
  - rewrite !filter_cons_True by done. by rewrite IH.
  - rewrite !filter_cons_False by done. by apply IH.
Qed.

(** After [updateMemory] with a lone [undefined], on a stored list that
    holds [null], the stored list holds [null] twice. *)
Lemma undefined_adds_a_null now ls :
  JUndefined ∉ storedPreferences ls → JNull ∈ storedPreferences ls →
  length (filter (λ v, v = JNull)
            (storedPreferences (updateMemory now [JUndefined] ls).2)) = 2.
Proof.
  intros Hundef Hnull. rewrite stored_after_updateMemory.
  unfold arrayFromSet. rewrite foldl_app. cbn [foldl]. fold (arrayFromSet (storedPreferences ls)).
  unfold setAdd. rewrite decide_False by (by rewrite elem_of_arrayFromSet).
  rewrite fmap_app, filter_app, length_app.
  rewrite nulls_after_json by (by rewrite elem_of_arrayFromSet).
  rewrite occurs_once; [done|apply arrayFromSet_NoDup|by apply elem_of_arrayFromSet].
Qed.

(** X3.  The merge is by exact value, and a missing argument is not a
    text: a [save_user_preference] request without its [preference]
    argument stores [null] (what [undefined] becomes in the stored JSON),
    and [null] is not recognised as the [undefined] of the next such
    request; after two of them, from any state, the stored list holds
    [null] twice. *)
Theorem missing_preference_is_stored_as_null_each_time (sch : Schedule) (s : State)
    (id1 id2 : string) :
  let s1 := final (run sch (onmessage (toolCallMessage [savePreferenceWithoutText id1]) s)) in
  let s2 := final (run sch (onmessage (toolCallMessage [savePreferenceWithoutText id2]) s1)) in
  JNull ∈ storedPreferences (localStorage s1)
  ∧ length (filter (λ v, v = JNull) (storedPreferences (localStorage s2))) = 2.
Proof.
  cbn zeta. rewrite !save_request_storage by first [done | by eexists].
  change (arg (savePreferenceWithoutText id1) "preference") with JUndefined.
  change (arg (savePreferenceWithoutText id2) "preference") with JUndefined.
  match goal with
  | |- context [updateMemory ?now [JUndefined] (localStorage s)] =>
      set (first := (updateMemory now [JUndefined] (localStorage s)).2)
  end.
  assert (JNull ∈ storedPreferences first) as Hnull.
  { unfold first. rewrite stored_after_updateMemory.
    apply list_elem_of_fmap. exists JUndefined. split; [done|].
    apply elem_of_arrayFromSet, elem_of_app. right. by left. }
  split; [done|]. apply undefined_adds_a_null; [|done].
  unfold first. rewrite stored_after_updateMemory. apply json_never_undefined.
Qed.

End Storage.

(** * More on the transcript *)
Section Transcript2.

(** X4.  A turn-complete signal that finds both accumulators empty
    changes nothing at all: no entry is added or finalised, and the agent
    state stays as it is (after a turn of audio without transcription it
    stays [SPEAKING]). *)
Theorem turn_completion_without_text_changes_nothing (sch : Schedule) (s : State) :
  currentInputTransRef s = "" →
  currentOutputTransRef s = "" →
  run sch (onmessage turnCompleteMessage s) = Returned tt s.
Proof.
  intros Hin Hout. rewrite onmessage_synchronous by done.
  change (handleTranscription turnCompleteMessage s) with s.
  unfold handleTurnComplete. cbn [turnComplete turnCompleteMessage].
  rewrite Hin. change (truthyString "") with false. cbn iota.
  rewrite Hout. change (truthyString "") with false. cbn iota.
  reflexivity.
Qed.

Lemma turn_completion_without_text_changes_nothing_witness :
  let s := deliver Demo.sch0 [audioMessage "AAAA"] Demo.connected in
  currentInputTransRef s = "" ∧ currentOutputTransRef s = ""
  ∧ agentState s = SPEAKING
  ∧ run Demo.sch0 (onmessage turnCompleteMessage s) = Returned tt s.
Proof.
  intros s. split; [reflexivity|]. split; [reflexivity|]. split; [reflexivity|].
  exact (turn_completion_without_text_changes_nothing Demo.sch0 s eq_refl eq_refl).
Defined.

(** X5.  An interruption discards the text the agent had accumulated: the
    next agent delta is rendered on its own, as a non-final entry that
    takes the slot of the interrupted entry when that entry is still last,
    and the user's accumulator is left alone. *)
Theorem interruption_discards_the_partial_agent_text (sch : Schedule) (s : State)
    (text : string) :
  let s' := deliver sch [interruptedMessage; outputDelta text] s in
  (∃ e, transcripts s' = settledPart Agent (transcripts s) ++ [e]
        ∧ te_speaker e = Agent ∧ te_text e = text ∧ te_isFinal e = false)
  ∧ currentOutputTransRef s' = text
  ∧ currentInputTransRef s' = currentInputTransRef s.
Proof.
  cbn zeta. rewrite !deliver_cons.
  change (final (run sch (onmessage interruptedMessage s)))
    with (handleInterruption interruptedMessage s).
  set (s1 := handleInterruption interruptedMessage s).
  assert (transcripts s1 = transcripts s) as Htr by reflexivity.
  assert (currentOutputTransRef s1 = "") as Hout by reflexivity.
  assert (currentInputTransRef s1 = currentInputTransRef s) as Hin by reflexivity.
  destruct (deliver_delta sch Agent text s1) as ((e & He & Hsp & Htext & Hnf) & Hacc & Hother & _).
  cbn [deliver foldl]. cbn [accumulator] in *.
  rewrite Htr, Hout in *. split; [by exists e|]. split; [done|].
  rewrite <- Hin. by apply (Hother User).
Qed.

End Transcript2.

(** * What the handling of a message keeps *)
Section Maintains.

Context (I : State → Prop).

Lemma maintains_run {A : Type} (sch : Schedule) (t : Task A) :
  respects sch I → maintains I t → ∀ n, I (final (runFrom sch n t)).
Proof.
  intros Hsch. induction 1 as [a s Hs|m s Hs|X ev s k Hs _ IH]; intros n; cbn; auto.
Qed.

Lemma maintains_bind {A B : Type} (t : Task A) (f : A → State → Task B) :
  maintains I t → (∀ a s, I s → maintains I (f a s)) → maintains I (Task_bind t f).
Proof.
  intros Ht Hf. induction Ht as [a s Hs|m s Hs|X ev s k Hs _ IH]; cbn.
  - by apply Hf.
  - by constructor.
  - constructor; [done|]. intros x s' Hs'. by apply IH.
Qed.

Context (Hsteps : StepsKeep I).

Lemma executeFunctionCall_maintains fc s :
  I s → maintains I (executeFunctionCall fc s).
Proof.
  intros Hs. destruct Hsteps. unfold executeFunctionCall, requireArgs.
  repeat case_decide; try destruct (fc_args fc); async_simpl; try (by constructor).
  - constructor; [auto 10|]. intros [] s' Hs'. constructor. auto 10.
  - constructor; [auto|]. intros [] s' Hs'. constructor. auto.
  - constructor. auto.
Qed.

Lemma executeFunctionCalls_maintains functionCalls : ∀ functionResponses s,
  I s → maintains I (executeFunctionCalls functionCalls functionResponses s).
Proof.
  induction functionCalls as [|fc rest IH]; intros functionResponses s Hs.
  - by constructor.
  - cbn [executeFunctionCalls]. async_simpl. apply maintains_bind.
    + apply executeFunctionCall_maintains. by apply keep_addLog.
    + intros result s' Hs'. by apply IH.
Qed.

Lemma handleToolCall_maintains message s :
  I s → maintains I (handleToolCall message s).
Proof.
  intros Hs. unfold handleToolCall. destruct (toolCall message); [|by constructor].
  async_simpl. apply maintains_bind.
  - apply executeFunctionCalls_maintains. by apply keep_addLog.
  - intros functionResponses s' Hs'. constructor. by apply keep_sendToolResponse.
Qed.

Lemma handleAudioOutput_maintains message s :
  I s → maintains I (handleAudioOutput message s).
Proof.
  intros Hs. unfold handleAudioOutput.
  destruct (inlineData message) as [base64|]; [|by constructor].
  destruct (truthyString base64); [|by constructor].
  async_simpl. constructor; [by apply keep_beginAudioOutput|].
  intros [audioBuffer|failure] s' Hs'; constructor; [|done].
  by apply keep_scheduleSource.
Qed.

Lemma onmessage_maintains message s :
  I s → maintains I (onmessage message s).
Proof.
  intros Hs. unfold onmessage. async_simpl. apply maintains_bind.
  - apply handleToolCall_maintains.
    by apply keep_handleTurnComplete, keep_handleTranscription.
  - intros [] s1 Hs1. apply maintains_bind.
    + by apply handleAudioOutput_maintains.
    + intros [] s2 Hs2. constructor. by apply keep_handleInterruption.
Qed.

(** Under a schedule whose other handlers keep [I], the delivery of any
    messages keeps [I]. *)
Lemma deliver_keeps sch messages : ∀ s,
  respects sch I → I s → I (deliver sch messages s).
Proof.
  induction messages as [|message messages IH]; intros s Hsch Hs; [done|].
  rewrite deliver_cons. apply IH; [done|].
  by apply maintains_run, onmessage_maintains.
Qed.

End Maintains.

Section Kept.

Lemma maintains_catch {A : Type} (I : State → Prop) (t : Task A)
    (h : string → State → Task A) :
  maintains I t → (∀ message s, I s → maintains I (h message s)) →
  maintains I (Task_catch t h).
Proof.
  intros Ht Hh. induction Ht as [a s Hs|m s Hs|X ev s k Hs _ IH]; cbn.
  - by constructor.
  - by apply Hh.
  - constructor; [done|]. intros x s' Hs'. by apply IH.
Qed.

(** Solves the goals of [StepsKeep] for a property that reads fields the
    steps leave alone. *)
Ltac untouched :=
  intros;
  unfold handleTranscription, handleTurnComplete, handleInterruption,
    sendToolResponse, beginAudioOutput;
  repeat case_match; first [assumption | subst; first [assumption | reflexivity]].

Lemma sessionRef_kept (v : option Session) : StepsKeep (λ s, sessionRef s = v).
Proof. split; untouched. Qed.

Lemma stopAudio_fields s :
  sessionRef (stopAudio s) = sessionRef s
  ∧ transcripts (stopAudio s) = transcripts s
  ∧ localStorage (stopAudio s) = localStorage s
  ∧ toolResponseLog (stopAudio s) = toolResponseLog s
  ∧ startLog (stopAudio s) = startLog s
  ∧ connectLog (stopAudio s) = connectLog s
  ∧ fresh (stopAudio s) = fresh s
  ∧ ∃ entry, logs (stopAudio s) = logs s ++ [entry].
Proof.
  destruct s as [? ? ? ? ? ? ? outCtx inCtx ? ? ? ? ? ? ? ? ? ? ? ? ? ? ? ? ?].
  destruct outCtx, inCtx; step_simpl; repeat split; by eexists.
Qed.

Lemma connectToLiveAPI_maintains (I : State → Prop) s :
  (∀ s0, I s0 → I (set_isInitializingRef true s0)) →
  (∀ e s0, I s0 → I (set_error e s0)) →
  (∀ a s0, I s0 → I (set_agentState a s0)) →
  (∀ message type s0, I s0 → I (addLog message type s0)) →
  (∀ s0, I s0 → I (openContexts s0)) →
  (∀ s0, I s0 → I (liveConnect s0)) →
  (∀ s0, I s0 → I (set_isInitializingRef false s0)) →
  I s → maintains I (connectToLiveAPI s).
Proof.
  intros Hinit Herr Hstate Hlog Hopen Hconnect Hdone Hs. unfold connectToLiveAPI.
  destruct (_ || _); [by constructor|]. async_simpl.
  destruct (missingKey _); cbn [Task_catch].
  - constructor. auto 10.
  - constructor; [auto 10|]. intros [stream|message] s' Hs'; cbn [Task_catch]; async_simpl.
    + constructor. auto.
    + constructor. auto 10.
Qed.

(** X6.  The ref that holds the session is written by nothing but the
    resolution of the connection promise: the handling of any messages
    (under a schedule whose other handlers leave it alone), [stopAudio],
    [onclose], [onerror], [onopen] and every step of [connectToLiveAPI]
    leave [sessionRef] as it is.  In particular a session that was stopped
    or closed is never forgotten. *)
Theorem sessionRef_is_only_set_by_the_connection (sch : Schedule) (v : option Session)
    (messages : list LiveServerMessage) (s : State) :
  respects sch (λ s, sessionRef s = v) →
  sessionRef s = v →
  sessionRef (deliver sch messages s) = v
  ∧ sessionRef (stopAudio s) = v
  ∧ sessionRef (onclose s) = v
  ∧ (∀ message, sessionRef (onerror message s) = v)
  ∧ sessionRef (onopen s) = v
  ∧ maintains (λ s, sessionRef s = v) (connectToLiveAPI s)
  ∧ ∀ n, sessionRef (final (runFrom sch n (connectToLiveAPI s))) = v.
Proof.
  intros Hsch Hs.
  assert (maintains (λ s, sessionRef s = v) (connectToLiveAPI s)) as Hconnect
    by (by apply connectToLiveAPI_maintains).
  split; [by apply (deliver_keeps _ (sessionRef_kept v))|].
  split; [by rewrite (proj1 (stopAudio_fields s))|].
  split; [unfold onclose; by rewrite (proj1 (stopAudio_fields _))|].
  split; [intros message; unfold onerror; by rewrite (proj1 (stopAudio_fields _))|].
  split; [done|]. split; [done|].
  intros n. by apply (maintains_run (λ s, sessionRef s = v)).
Qed.

Lemma sessionRef_is_only_set_by_the_connection_witness :
  respects Demo.schStop (λ s, sessionRef s = Some 2)
  ∧ sessionRef Demo.connected = Some 2
  ∧ sessionRef (deliver Demo.schStop [toolCallMessage [Demo.findNumber "c1"]] Demo.connected)
    = Some 2.
Proof.
  assert (respects Demo.schStop (λ s, sessionRef s = Some 2)) as Hsch.
  { intros n s Hs. change (sessionRef (stopAudio s) = Some 2).
    by rewrite (proj1 (stopAudio_fields s)). }
  split; [exact Hsch|]. split; [reflexivity|].
  exact (proj1 (sessionRef_is_only_set_by_the_connection Demo.schStop (Some 2)
                  [toolCallMessage [Demo.findNumber "c1"]] Demo.connected Hsch eq_refl)).
Defined.

(** ** The system log *)

Lemma appending_keeps_prefix (base : list LogEntry) (f : State → State) :
  (∀ s, logs s `prefix_of` logs (f s)) →
  ∀ s, base `prefix_of` logs s → base `prefix_of` logs (f s).
Proof. intros Hf s Hs. by etrans. Qed.

Lemma addLog_extends message type s : logs s `prefix_of` logs (addLog message type s).
Proof. rewrite addLog_appends. by apply prefix_app_r. Qed.

Lemma handleInterruption_extends message s :
  logs s `prefix_of` logs (handleInterruption message s).
Proof.
  unfold handleInterruption. destruct (interrupted message); [|done].
  change (logs s `prefix_of` logs (addLog "Agent interrupted by user" Alert s)).
  apply addLog_extends.
Qed.

Lemma logs_kept (base : list LogEntry) : StepsKeep (λ s, base `prefix_of` logs s).
Proof.
  split; intros; (eapply appending_keeps_prefix; [|eassumption]); intros s0.
  - unfold handleTranscription. by repeat case_match.
  - unfold handleTurnComplete. by repeat case_match.
  - apply handleInterruption_extends.
  - apply addLog_extends.
  - done.
  - done.
  - done.
  - done.
  - done.
  - done.
  - unfold sendToolResponse. by case_match.
  - unfold beginAudioOutput. by case_match.
  - done.
Qed.

(** X7.  The system log is append-only: the handling of any messages
    (under a schedule whose other handlers only append), [stopAudio],
    [onopen], [onclose], [onerror] and [connectToLiveAPI] leave every
    entry already logged in place and unchanged. *)
Theorem logs_are_append_only (sch : Schedule) (messages : list LiveServerMessage)
    (s : State) :
  respects sch (λ s', logs s `prefix_of` logs s') →
  logs s `prefix_of` logs (deliver sch messages s)
  ∧ logs s `prefix_of` logs (stopAudio s)
  ∧ logs s `prefix_of` logs (onopen s)
  ∧ logs s `prefix_of` logs (onclose s)
  ∧ (∀ message, logs s `prefix_of` logs (onerror message s))
  ∧ ∀ n, logs s `prefix_of` logs (final (runFrom sch n (connectToLiveAPI s))).
Proof.
  intros Hsch.
  assert (∀ s0, logs s0 `prefix_of` logs (stopAudio s0)) as Hstop.
  { intros s0. destruct (stopAudio_fields s0) as (_ & _ & _ & _ & _ & _ & _ & entry & ->).
    by apply prefix_app_r. }
  split; [by apply (deliver_keeps _ (logs_kept (logs s)))|].
  split; [done|].
  split; [apply addLog_extends|].
  split; [unfold onclose; etrans; [apply addLog_extends|apply Hstop]|].
  split; [intros message; unfold onerror; etrans; [|apply Hstop];
          etrans; [|apply addLog_extends]; done|].
  intros n. apply (maintains_run (λ s', logs s `prefix_of` logs s')); [done|].
  apply connectToLiveAPI_maintains; try done.
  - intros message type s0 Hs0. etrans; [done|apply addLog_extends].
Qed.

Lemma logs_are_append_only_witness :
  let s := Demo.connected in
  respects Demo.sch0 (λ s', logs s `prefix_of` logs s')
  ∧ logs s `prefix_of` logs (deliver Demo.sch0 [toolCallMessage [Demo.executeCall "c1"];
                                                 interruptedMessage] s).
Proof.
  intros s. split; [by intros n s0|].
  exact (proj1 (logs_are_append_only Demo.sch0 _ s (λ n s0 H, H))).
Defined.

(** ** The transcript *)

Lemma updateTranscript_keeps base speaker text isFinal s :
  (∀ i e, settledAt base i e → settledAt (transcripts s) i e) →
  ∀ i e, settledAt base i e → settledAt (transcripts (updateTranscript speaker text isFinal s)) i e.
Proof.
  intros Hs i e Hbase.
  change (settledAt (updateTranscript_updater (randomId (env s) (tick s))
                       (localeTime (env s) (tick s)) speaker text isFinal (transcripts s)) i e).
  by apply updater_keeps, Hs.
Qed.

Lemma transcripts_kept (base : list TranscriptEntry) :
  StepsKeep (λ s, ∀ i e, settledAt base i e → settledAt (transcripts s) i e).
Proof.
  split; try (intros; unfold handleInterruption, sendToolResponse, beginAudioOutput;
              repeat case_match;
              match goal with H : ∀ i e, _ → _ |- _ => by apply H end).
  - intros message s Hs. unfold handleTranscription.
    destruct (outputTranscription message); [by apply updateTranscript_keeps|].
    destruct (inputTranscription message); [by apply updateTranscript_keeps|done].
  - intros message s Hs. unfold handleTurnComplete.
    destruct (turnComplete message); [|done].
    destruct (truthyString (currentInputTransRef s)).
    + match goal with |- context [if ?c then _ else _] => destruct c end; [|by apply (updateTranscript_keeps base User)].
      apply (updateTranscript_keeps base Agent). by apply (updateTranscript_keeps base User).
    + destruct (truthyString (currentOutputTransRef s)); [|done].
      by apply (updateTranscript_keeps base Agent).
Qed.

(** X8.  Across the handling of any messages (under a schedule whose other
    handlers do likewise) an entry that is final, or no longer last, stays
    at its index as it is; and the transcript is never cleared:
    [stopAudio], [onopen], [onclose], [onerror] and [connectToLiveAPI]
    leave it as it is, so the transcript of a stopped session stays in
    place when the next session starts. *)
Theorem transcript_survives_messages_and_sessions (sch : Schedule)
    (messages : list LiveServerMessage) (s : State) (i : nat) (e : TranscriptEntry) :
  respects sch (λ s', ∀ i e, settledAt (transcripts s) i e → settledAt (transcripts s') i e) →
  respects sch (λ s', transcripts s' = transcripts s) →
  transcripts s !! i = Some e →
  te_isFinal e = true ∨ S i < length (transcripts s) →
  transcripts (deliver sch messages s) !! i = Some e
  ∧ transcripts (stopAudio s) = transcripts s
  ∧ transcripts (onopen s) = transcripts s
  ∧ transcripts (onclose s) = transcripts s
  ∧ (∀ message, transcripts (onerror message s) = transcripts s)
  ∧ ∀ n, transcripts (final (runFrom sch n (connectToLiveAPI s))) = transcripts s.
Proof.
  intros Hsch Hsch' Hi Hset.
  pose proof (λ s0, proj1 (proj2 (stopAudio_fields s0))) as Hstop.
  split.
  - apply (deliver_keeps _ (transcripts_kept (transcripts s)) sch messages s Hsch); done.
  - split; [done|]. split; [done|].
    split; [unfold onclose; by rewrite Hstop|].
    split; [intros message; unfold onerror; by rewrite Hstop|].
    intros n. apply (maintains_run (λ s', transcripts s' = transcripts s)); [done|].
    by apply connectToLiveAPI_maintains.
Qed.

Lemma transcript_survives_messages_and_sessions_witness :
  let s := deliver Demo.sch0 [inputDelta "hi"; turnCompleteMessage] Demo.connected in
  respects Demo.sch0 (λ s', ∀ i e, settledAt (transcripts s) i e → settledAt (transcripts s') i e)
  ∧ respects Demo.sch0 (λ s', transcripts s' = transcripts s)
  ∧ (∃ e, transcripts s !! 0 = Some e ∧ te_isFinal e = true
          ∧ transcripts (deliver Demo.sch0 [inputDelta "again"; outputDelta "yes"] s) !! 0
            = Some e).
Proof.
  intros s. split; [by intros n s0|]. split; [by intros n s0|].
  eexists. split; [reflexivity|]. split; [reflexivity|].
  refine (proj1 (transcript_survives_messages_and_sessions Demo.sch0
                   [inputDelta "again"; outputDelta "yes"] s 0 _
                   (λ n s0 H, H) (λ n s0 H, H) eq_refl (or_introl eq_refl))).
Defined.

End Kept.

Section Responses.

Lemma no_session_kept (sent : list (Session * list FunctionResponse)) :
  StepsKeep (λ s, sessionRef s = None ∧ toolResponseLog s = sent).
Proof.
  split; try (intros; unfold handleTranscription, handleTurnComplete, handleInterruption,
                beginAudioOutput; repeat case_match; assumption).
  intros functionResponses s [Hnone Hsent]. unfold sendToolResponse. by rewrite Hnone.
Qed.

(** X9.  While [sessionRef] holds no session (the connection promise has
    not resolved yet), no tool response is sent: whatever messages arrive,
    tool-call batches included, the log of [sendToolResponse] calls stays
    as it is, so the requests of those batches are never answered. *)
Theorem no_session_no_tool_response (sch : Schedule) (messages : list LiveServerMessage)
    (s : State) :
  respects sch (λ s', sessionRef s' = None ∧ toolResponseLog s' = toolResponseLog s) →
  sessionRef s = None →
  toolResponseLog (deliver sch messages s) = toolResponseLog s
  ∧ sessionRef (deliver sch messages s) = None.
Proof.
  intros Hsch Hnone.
  destruct (deliver_keeps _ (no_session_kept (toolResponseLog s)) sch messages s Hsch);
    done.
Qed.

Lemma no_session_no_tool_response_witness :
  let s := onopen (final (run Demo.sch0 (connectToLiveAPI (mount Demo.env0)))) in
  respects Demo.sch0 (λ s', sessionRef s' = None ∧ toolResponseLog s' = toolResponseLog s)
  ∧ sessionRef s = None
  ∧ agentState s = LISTENING
  ∧ toolResponseLog (deliver Demo.sch0 [toolCallMessage [Demo.findNumber "c1"]] s) = [].
Proof.
  intros s. split; [by intros n s0|]. split; [reflexivity|]. split; [reflexivity|].
  exact (proj1 (no_session_no_tool_response Demo.sch0 [toolCallMessage [Demo.findNumber "c1"]]
                  s (λ n s0 H, H) eq_refl)).
Defined.

End Responses.

(** * More on playback *)
Section Playback2.

(** X11.  A buffer is never started in the past and never before the
    cursor; when the clock has not passed the cursor it starts exactly at
    the cursor, so that of two buffers scheduled one after the other the
    second starts exactly when the first ends (no gap) if the clock has not
    passed that end, and at the clock otherwise. *)
Theorem playback_is_gapless_and_never_in_the_past (audioBuffer1 audioBuffer2 : AudioBuffer)
    (now1 now2 : Q) (s : State) :
  let s1 := scheduleSource audioBuffer1 now1 s in
  let s2 := scheduleSource audioBuffer2 now2 s1 in
  ∃ node1 start1 node2 start2,
    startLog s2 = startLog s ++ [(node1, start1); (node2, start2)]
    ∧ sn_buffer node1 = audioBuffer1 ∧ sn_buffer node2 = audioBuffer2
    ∧ (now1 <= start1)%Q ∧ (nextStartTimeRef s <= start1)%Q
    ∧ (now2 <= start2)%Q
    ∧ ((now2 <= start1 + duration audioBuffer1)%Q →
       (start2 == start1 + duration audioBuffer1)%Q)
    ∧ ((start1 + duration audioBuffer1 <= now2)%Q → (start2 == now2)%Q).
Proof.
  cbn zeta. eexists _, _, _, _.
  rewrite !scheduleSource_log, scheduleSource_cursor, <- app_assoc.
  split; [reflexivity|]. cbn [sn_buffer].
  split; [done|]. split; [done|].
  split; [apply Q.le_max_r|]. split; [apply Q.le_max_l|]. split; [apply Q.le_max_r|].
  split; intros H; [by apply Q.max_l|by apply Q.max_r].
Qed.

Lemma playback_is_gapless_and_never_in_the_past_witness :
  let s2 := scheduleSource Demo.oneSecond (3 # 2) (scheduleSource Demo.oneSecond (1 # 2)
                                                    (mount Demo.env0)) in
  ((3 # 2) <= (1 # 2) + duration Demo.oneSecond)%Q
  ∧ ∃ node1 start1 node2 start2,
      startLog s2 = [(node1, start1); (node2, start2)]
      ∧ (start1 == 1 # 2)%Q ∧ (start2 == 3 # 2)%Q.
Proof.
  intros s2. split; [discriminate|].
  destruct (playback_is_gapless_and_never_in_the_past Demo.oneSecond Demo.oneSecond
              (1 # 2) (3 # 2) (mount Demo.env0))
    as (node1 & start1 & node2 & start2 & Hlog & _).
  exists node1, start1, node2, start2. split; [exact Hlog|].
  injection Hlog as _ <- _ <-. split; reflexivity.
Defined.

Lemma activeSetOk_frame s s' :
  sourcesRef s' = sourcesRef s → fresh s ≤ fresh s' → activeSetOk s → activeSetOk s'.
Proof.
  intros Hsrc Hfresh [Hnd Hlt]. split; rewrite Hsrc; [done|].
  intros node Hnode. specialize (Hlt node Hnode). lia.
Qed.

Lemma activeSetOk_schedule audioBuffer now s :
  activeSetOk s →
  sourcesRef (scheduleSource audioBuffer now s)
  = sourcesRef s ++ [ {| sn_handle := fresh s; sn_buffer := audioBuffer |} ]
  ∧ activeSetOk (scheduleSource audioBuffer now s).
Proof.
  intros [Hnd Hlt].
  set (node := {| sn_handle := fresh s; sn_buffer := audioBuffer |}).
  assert (node ∉ sourcesRef s) as Hnew.
  { intros Hin. specialize (Hlt node Hin). cbn in Hlt. lia. }
  assert (sourcesRef (scheduleSource audioBuffer now s) = sourcesRef s ++ [node]) as Hsrc.
  { change (sourcesRef (scheduleSource audioBuffer now s))
      with (if decide (node ∈ sourcesRef s) then sourcesRef s else sourcesRef s ++ [node]).
    by rewrite decide_False. }
  split; [done|]. split; rewrite Hsrc.
  - rewrite fmap_app. apply NoDup_app. split; [done|]. split; [|apply NoDup_singleton].
    intros h (n & -> & Hn)%list_elem_of_fmap Hh. apply list_elem_of_singleton in Hh.
    specialize (Hlt n Hn). cbn in Hh. lia.
  - change (fresh (scheduleSource audioBuffer now s)) with (S (fresh s)).
    intros n [Hn| ->%list_elem_of_singleton]%elem_of_app; [specialize (Hlt n Hn); lia|].
    cbn. lia.
Qed.

Lemma activeSetOk_emptied s :
  sourcesRef s = [] → activeSetOk s.
Proof.
  intros Hsrc. split; rewrite Hsrc; [apply NoDup_nil_2|]. by intros node ?%not_elem_of_nil.
Qed.

Lemma activeSet_kept : StepsKeep activeSetOk.
Proof.
  split; try (intros; eapply activeSetOk_frame; [| |eassumption];
              unfold handleTranscription, handleTurnComplete, sendToolResponse,
                beginAudioOutput; repeat case_match; done).
  - intros message s Hs. unfold handleInterruption. destruct (interrupted message); [|done].
    by apply activeSetOk_emptied.
  - intros audioBuffer now s Hs.
    eapply activeSetOk_frame; [| |apply (activeSetOk_schedule audioBuffer now s Hs)]; done.
Qed.

Lemma filter_others_id (l : list SourceNode) (node : SourceNode) :
  node ∉ l → filter (λ n, n ≠ node) l = l.
Proof.
  induction l as [|n l IH]; intros Hnot; [done|].
  rewrite filter_cons_True by set_solver. f_equal. apply IH. set_solver.
Qed.

Lemma filter_others_length (l : list SourceNode) (node : SourceNode) :
  NoDup l → node ∈ l → S (length (filter (λ n, n ≠ node) l)) = length l.
Proof.
  induction 1 as [|n l Hn Hnd IH]; intros Hin; [by apply not_elem_of_nil in Hin|].
  destruct (decide (n = node)) as [->|Hne].
  - rewrite filter_cons_False by (by intros ?). by rewrite filter_others_id.
  - rewrite filter_cons_True by done. cbn. f_equal. apply IH. set_solver.
Qed.

Lemma filter_keeps_handles (l : list SourceNode) (node : SourceNode) :
  NoDup (sn_handle <$> l) → NoDup (sn_handle <$> filter (λ n, n ≠ node) l).
Proof.
  induction l as [|n l IH]; [done|].
  rewrite fmap_cons, NoDup_cons. intros [Hn Hl].
  rewrite filter_cons. case_decide; [|by apply IH].
  rewrite fmap_cons. apply NoDup_cons. split; [|by apply IH].
  intros (m & Hm & Hin%list_elem_of_filter)%list_elem_of_fmap. apply Hn.
  apply list_elem_of_fmap. exists m. by destruct Hin.
Qed.

(** X12.  The active set is a set of nodes created so far: no node is in
    it twice and every handle in it is below the allocation counter.  This
    holds at mount and is kept by the handling of any messages, by the
    [ended] listener and by [stopAudio]; hence every scheduled source
    enters the set as a new member, and the [ended] listener of a member
    removes that member and nothing else. *)
Theorem active_set_is_a_set (sch : Schedule) (messages : list LiveServerMessage) (s : State) :
  respects sch activeSetOk →
  activeSetOk s →
  activeSetOk (deliver sch messages s)
  ∧ activeSetOk (stopAudio s)
  ∧ (∀ e, activeSetOk (mount e))
  ∧ (∀ audioBuffer now,
       sourcesRef (scheduleSource audioBuffer now s)
       = sourcesRef s ++ [ {| sn_handle := fresh s; sn_buffer := audioBuffer |} ])
  ∧ ∀ node, node ∈ sourcesRef s →
      activeSetOk (sourceEnded node s)
      ∧ (node ∉ sourcesRef (sourceEnded node s))
      ∧ S (length (sourcesRef (sourceEnded node s))) = length (sourcesRef s)
      ∧ ∀ other, other ∈ sourcesRef s → other ≠ node → other ∈ sourcesRef (sourceEnded node s).
Proof.
  intros Hsch Hs. split; [by apply (deliver_keeps _ activeSet_kept)|].
  split.
  { apply activeSetOk_emptied.
    destruct s as [? ? ? ? ? ? ? outCtx inCtx ? ? ? ? ? ? ? ? ? ? ? ? ? ? ? ? ?].
    by destruct outCtx, inCtx. }
  split; [intros e; by apply activeSetOk_emptied|].
  split; [intros audioBuffer now; by apply activeSetOk_schedule|].
  intros node Hnode. destruct Hs as [Hnd Hlt].
  change (sourcesRef (sourceEnded node s)) with (filter (λ n, n ≠ node) (sourcesRef s)).
  assert (NoDup (sourcesRef s)) as Hnd' by (by eapply NoDup_fmap_1).
  split; [|split; [|split]].
  - split.
    + change (sourcesRef (sourceEnded node s)) with (filter (λ n, n ≠ node) (sourcesRef s)).
      by apply filter_keeps_handles.
    + intros n Hn.
      change (sourcesRef (sourceEnded node s)) with (filter (λ n, n ≠ node) (sourcesRef s)) in Hn.
      apply list_elem_of_filter in Hn as [_ Hn]. by apply Hlt.
  - by intros [? _]%list_elem_of_filter.
  - by apply filter_others_length.
  - intros other Hother Hne. by apply list_elem_of_filter.
Qed.

Lemma active_set_is_a_set_witness :
  let s := deliver Demo.sch0 [audioMessage "AAAA"; audioMessage "BBBB"] Demo.connected in
  respects Demo.sch0 activeSetOk
  ∧ activeSetOk s
  ∧ activeSetOk (deliver Demo.sch0 [audioMessage "CCCC"; interruptedMessage] s).
Proof.
  intros s.
  assert (activeSetOk s) as Hs.
  { split; [|intros node Hnode]; vm_compute in *.
    - repeat constructor; set_solver.
    - set_solver by lia. }
  split; [by intros n s0|]. split; [exact Hs|].
  exact (proj1 (active_set_is_a_set Demo.sch0 [audioMessage "CCCC"; interruptedMessage] s
                  (λ n s0 H, H) Hs)).
Defined.

End Playback2.

(** * More on the session life cycle *)
Section Session2.

Lemma stopAudio_state s :
  agentState (stopAudio s) = IDLE
  ∧ isInitializingRef (stopAudio s) = false
  ∧ env (stopAudio s) = env s
  ∧ renderedAgentState (stopAudio s) = renderedAgentState s
  ∧ closeLog (stopAudio s)
    = closeLog s ++ option_list (audioContextRef s) ++ option_list (inputContextRef s).
Proof.
  destruct s as [? ? ? ? ? ? ? outCtx inCtx ? ? ? ? ? ? ? ? ? ? ? ? ? ? ? ? ?].
  destruct outCtx, inCtx; step_simpl; cbn [option_list];
    rewrite ?app_nil_r, <- ?app_assoc; repeat split; reflexivity.
Qed.

(** [connectToLiveAPI] when its guard lets it through. *)
Lemma connectToLiveAPI_unfold s :
  isInitializingRef s = false →
  renderedAgentState s = IDLE →
  let s0 := addLog "Initializing audio contexts..." Info
              (set_agentState CONNECTING (set_error None (set_isInitializingRef true s))) in
  if missingKey (API_KEY (env s)) then
    connectToLiveAPI s = Done tt (setupFailed "API Key not found in environment." s0)
  else
    ∃ k, connectToLiveAPI s
         = Await GetUserMedia (addLog "Requesting microphone access..." Info (openContexts s0)) k
         ∧ (∀ stream s', k (inl stream) s' = Done tt (liveConnect s'))
         ∧ (∀ message s', k (inr message) s' = Done tt (setupFailed message s')).
Proof.
  intros Hinit Hidle. unfold connectToLiveAPI.
  rewrite Hinit, Hidle. cbn [orb]. rewrite bool_decide_eq_false_2 by (by intros ?).
  async_simpl.
  change (env (addLog "Initializing audio contexts..." Info
                 (set_agentState CONNECTING (set_error None (set_isInitializingRef true s)))))
    with (env s).
  cbn zeta. destruct (missingKey (API_KEY (env s))); cbn [Task_catch]; [reflexivity|].
  eexists. split; [reflexivity|]. split; reflexivity.
Qed.

(** X13.  Without an API key [connectToLiveAPI] fails at once, without
    suspending: it ends in the [IDLE] state with the initialisation flag
    cleared and the error message set, having opened no audio context and
    no session; what it has logged ends with the setup error. *)
Theorem connect_without_api_key_fails_at_once (s : State) :
  isInitializingRef s = false →
  renderedAgentState s = IDLE →
  missingKey (API_KEY (env s)) = true →
  ∃ s',
    connectToLiveAPI s = Done tt s'
    ∧ agentState s' = IDLE
    ∧ isInitializingRef s' = false
    ∧ error s' = Some "API Key not found in environment."
    ∧ audioContextRef s' = audioContextRef s
    ∧ inputContextRef s' = inputContextRef s
    ∧ connectLog s' = connectLog s
    ∧ fresh s' = fresh s
    ∧ ∃ entry1 entry2,
        logs s' = logs s ++ [entry1; entry2]
        ∧ log_message entry2 = "Setup Error: API Key not found in environment."
        ∧ log_type entry2 = Error.
Proof.
  intros Hinit Hidle Hkey.
  pose proof (connectToLiveAPI_unfold s Hinit Hidle) as Hconnect.
  cbn zeta in Hconnect. rewrite Hkey in Hconnect. rewrite Hconnect.
  eexists. split; [reflexivity|]. repeat (split; [reflexivity|]).
  set (s0 := addLog "Initializing audio contexts..." Info
               (set_agentState CONNECTING (set_error None (set_isInitializingRef true s)))).
  set (entry1 := {| log_id := randomId (env s) (tick s);
                    log_time := localeTime (env s) (tick s);
                    log_message := "Initializing audio contexts..."; log_type := Info |}).
  set (entry2 := {| log_id := randomId (env s0) (tick s0);
                    log_time := localeTime (env s0) (tick s0);
                    log_message := "Setup Error: API Key not found in environment.";
                    log_type := Error |}).
  exists entry1, entry2. split; [|done].
  change (logs s0 ++ [entry2] = logs s ++ [entry1; entry2]).
  change (logs s0) with (logs s ++ [entry1]). by rewrite <- app_assoc.
Qed.

Lemma connect_without_api_key_fails_at_once_witness :
  let s := mount {| randomId := λ n, "r"; localeTime := λ n, "t"; dateNow := λ n, 0%Z;
                    currentTime := λ n, 0%Q; API_KEY := None |} in
  isInitializingRef s = false ∧ renderedAgentState s = IDLE
  ∧ missingKey (API_KEY (env s)) = true
  ∧ ∃ s', connectToLiveAPI s = Done tt s'
          ∧ agentState s' = IDLE
          ∧ error s' = Some "API Key not found in environment.".
Proof.
  intros s. split; [reflexivity|]. split; [reflexivity|]. split; [reflexivity|].
  destruct (connect_without_api_key_fails_at_once s eq_refl eq_refl eq_refl)
    as (s' & H1 & H2 & _ & H3 & _).
  by exists s'.
Defined.

(** X14.  When the microphone is refused [connectToLiveAPI] ends in the
    [IDLE] state with the initialisation flag cleared and the error set to
    the message of the refusal (or to the default text when that message
    is empty), and opens no session; the two audio contexts it had opened
    before asking stay open and referenced, and the next [stopAudio]
    closes them. *)
Theorem refused_microphone_leaves_contexts_to_stop (s : State) :
  isInitializingRef s = false →
  renderedAgentState s = IDLE →
  missingKey (API_KEY (env s)) = false →
  ∃ s1 k,
    connectToLiveAPI s = Await GetUserMedia s1 k
    ∧ inputContextRef s1 = Some (fresh s)
    ∧ audioContextRef s1 = Some (S (fresh s))
    ∧ closeLog s1 = closeLog s
    ∧ ∀ message s',
        let s2 := setupFailed message s' in
        k (inr message) s' = Done tt s2
        ∧ agentState s2 = IDLE
        ∧ isInitializingRef s2 = false
        ∧ error s2 = Some (if truthyString message then message else "Failed to start session")
        ∧ connectLog s2 = connectLog s'
        ∧ inputContextRef s2 = inputContextRef s'
        ∧ audioContextRef s2 = audioContextRef s'
        ∧ closeLog (stopAudio s2)
          = closeLog s' ++ option_list (audioContextRef s') ++ option_list (inputContextRef s').
Proof.
  intros Hinit Hidle Hkey.
  pose proof (connectToLiveAPI_unfold s Hinit Hidle) as Hconnect.
  cbn zeta in Hconnect. rewrite Hkey in Hconnect.
  destruct Hconnect as (k & -> & _ & Hk).
  eexists _, k. split; [reflexivity|]. repeat (split; [reflexivity|]).
  intros message s'. cbn zeta. split; [apply Hk|]. repeat (split; [reflexivity|]).
  by rewrite (proj2 (proj2 (proj2 (proj2 (stopAudio_state _))))).
Qed.

Lemma refused_microphone_leaves_contexts_to_stop_witness :
  let s := mount Demo.env0 in
  let s2 := final (run Demo2.schDenied (connectToLiveAPI s)) in
  isInitializingRef s = false ∧ renderedAgentState s = IDLE
  ∧ missingKey (API_KEY (env s)) = false
  ∧ agentState s2 = IDLE
  ∧ error s2 = Some "Permission denied"
  ∧ closeLog (stopAudio s2) = [1; 0]
  ∧ ∃ s1 k, connectToLiveAPI s = Await GetUserMedia s1 k.
Proof.
  intros s s2. split; [reflexivity|]. split; [reflexivity|]. split; [reflexivity|].
  split; [reflexivity|]. split; [reflexivity|]. split; [reflexivity|].
  destruct (refused_microphone_leaves_contexts_to_stop s eq_refl eq_refl eq_refl)
    as (s1 & k & H & _).
  by exists s1, k.
Defined.

Lemma commitRender_fields s :
  isInitializingRef (commitRender s) = isInitializingRef s
  ∧ renderedAgentState (commitRender s) = agentState s
  ∧ env (commitRender s) = env s.
Proof. done. Qed.

(** X15.  While a session is up no second one can be started, and
    [stopAudio] makes starting possible again only once the component has
    re-rendered: after [onopen] and a render [connectToLiveAPI] changes
    nothing; right after [stopAudio] it still changes nothing, because the
    handler at hand captured the state of before; after the next render it
    starts (given an API key). *)
Theorem stop_reenables_connect_after_render (s : State) :
  missingKey (API_KEY (env s)) = false →
  let up := commitRender (onopen s) in
  connectToLiveAPI up = Done tt up
  ∧ connectToLiveAPI (stopAudio up) = Done tt (stopAudio up)
  ∧ ∃ s1 k, connectToLiveAPI (commitRender (stopAudio up)) = Await GetUserMedia s1 k
            ∧ agentState s1 = CONNECTING.
Proof.
  intros Hkey up.
  destruct (stopAudio_state up) as (Hstate & Hinit & Henv & Hrendered & _).
  split; [by apply connectToLiveAPI_noop; right|].
  split.
  { apply connectToLiveAPI_noop. right. by rewrite Hrendered. }
  destruct (connectToLiveAPI_starts (commitRender (stopAudio up)))
    as (s1 & k & Hstart & Hconnecting & _).
  - by rewrite (proj1 (commitRender_fields _)).
  - by rewrite (proj1 (proj2 (commitRender_fields _))).
  - by rewrite (proj2 (proj2 (commitRender_fields _))), Henv.
  - by exists s1, k.
Qed.

Lemma stop_reenables_connect_after_render_witness :
  let s := final (run Demo.sch0 (connectToLiveAPI (mount Demo.env0))) in
  let up := commitRender (onopen s) in
  missingKey (API_KEY (env s)) = false
  ∧ connectToLiveAPI up = Done tt up
  ∧ connectToLiveAPI (stopAudio up) = Done tt (stopAudio up).
Proof.
  intros s up. split; [reflexivity|].
  destruct (stop_reenables_connect_after_render s eq_refl) as (H1 & H2 & _).
  split; [exact H1|exact H2].
Defined.

End Session2.

(** * More on tool dispatch, and the microphone *)
Section Tools2.

(** X16.  [execute_call], for a call that carries its [args], switches
    to [IN_CALL], mutes the microphone and shows the call details before
    the simulated connection delay, and writes nothing to storage yet.  When the delay is over it saves the
    call record (status completed; the context is the script, or the
    objective when there is no script) ahead of the stored history and
    calls [onCallComplete] once, from whatever state the component is in
    by then, without touching the agent state or the mute flag again: a
    call is recorded as completed even when the session was stopped during
    the delay.  The dashboard's total and successful counts both go up by
    one. *)
Theorem execute_call_records_the_call_after_the_delay (fc : FunctionCall) (s : State) :
  fc_name fc = "execute_call" →
  is_Some (fc_args fc) →
  ∃ s1 k,
    executeFunctionCall fc s = Await (Timeout 1500) s1 k
    ∧ agentState s1 = IN_CALL
    ∧ isMicMuted s1 = true
    ∧ activeCallDetails s1
      = Some {| recipient := arg fc "recipientName"; number := arg fc "phoneNumber" |}
    ∧ localStorage s1 = localStorage s
    ∧ callCompleteLog s1 = callCompleteLog s
    ∧ ∀ s', ∃ s2 result,
        k tt s' = Done result s2
        ∧ getCalls (localStorage s2)
          = callRecordFor fc (randomId (env s') (S (tick s'))) (dateNow (env s') (S (tick s')))
            :: getCalls (localStorage s')
        ∧ vox_memory (localStorage s2) = vox_memory (localStorage s')
        ∧ callCompleteLog s2 = S (callCompleteLog s')
        ∧ agentState s2 = agentState s'
        ∧ isMicMuted s2 = isMicMuted s'
        ∧ Dashboard.totalCalls (getCalls (localStorage s2))
          = S (Dashboard.totalCalls (getCalls (localStorage s')))
        ∧ Dashboard.successful (getCalls (localStorage s2))
          = S (Dashboard.successful (getCalls (localStorage s'))).
Proof.
  intros Hname [args Hargs]. unfold executeFunctionCall, requireArgs. rewrite Hname, Hargs.
  rewrite (decide_True (P := "execute_call" = "execute_call")) by done.
  async_simpl. eexists _, _. split; [reflexivity|]. repeat (split; [reflexivity|]).
  intros s'. eexists _, _. split; [reflexivity|]. repeat (split; [reflexivity|]).
  split; reflexivity.
Qed.

Lemma execute_call_records_the_call_after_the_delay_witness :
  let s' := final (run Demo.schStop (onmessage (toolCallMessage [Demo.executeCall "c1"])
                                       Demo.connected)) in
  fc_name (Demo.executeCall "c1") = "execute_call"
  ∧ is_Some (fc_args (Demo.executeCall "c1"))
  ∧ agentState s' = IDLE
  ∧ (cr_status <$> getCalls (localStorage s')) = [completed]
  ∧ ∃ s1 k, executeFunctionCall (Demo.executeCall "c1") Demo.connected
            = Await (Timeout 1500) s1 k.
Proof.
  intros s'. split; [reflexivity|]. split; [by eexists|]. split; [vm_compute; reflexivity|].
  split; [vm_compute; reflexivity|].
  destruct (execute_call_records_the_call_after_the_delay (Demo.executeCall "c1")
              Demo.connected eq_refl (mk_is_Some _ _ eq_refl)) as (s1 & k & H & _).
  by exists s1, k.
Defined.

Lemma onaudioprocess_live createPcmBlob session frame m :
  sessionRef (component m) = Some session →
  isMicMutedRef m = false →
  onaudioprocess createPcmBlob frame m
  = {| component := component m; isMicMutedRef := false;
       renderedIsMicMuted := renderedIsMicMuted m;
       realtimeInputLog := realtimeInputLog m ++ [(session, createPcmBlob frame)] |}.
Proof. intros Hsession Hlive. unfold onaudioprocess. by rewrite Hsession, Hlive. Qed.

Lemma capture_cons createPcmBlob frame frames m :
  capture createPcmBlob (frame :: frames) m
  = capture createPcmBlob frames (onaudioprocess createPcmBlob frame m).
Proof. reflexivity. Qed.

Lemma capture_when_live createPcmBlob session frames : ∀ m,
  sessionRef (component m) = Some session →
  isMicMutedRef m = false →
  let m' := capture createPcmBlob frames m in
  realtimeInputLog m' = realtimeInputLog m ++ ((λ f, (session, createPcmBlob f)) <$> frames)
  ∧ component m' = component m
  ∧ isMicMutedRef m' = false.
Proof.
  induction frames as [|frame frames IH]; intros m Hsession Hlive.
  - cbn. by rewrite app_nil_r.
  - cbn zeta. rewrite capture_cons, (onaudioprocess_live _ session) by done.
    match goal with |- context [capture _ _ ?m1] => destruct (IH m1) as (-> & -> & ->) end;
      [done|done|].
    cbn. by rewrite <- app_assoc.
Qed.

Lemma capture_when_silent createPcmBlob frames : ∀ m,
  sessionRef (component m) = None ∨ isMicMutedRef m = true →
  capture createPcmBlob frames m = m.
Proof.
  induction frames as [|frame frames IH]; intros m Hsilent; [done|].
  rewrite capture_cons.
  assert (onaudioprocess createPcmBlob frame m = m) as ->; [|by apply IH].
  unfold onaudioprocess. destruct Hsilent as [->| ->]; [done|]. by case_match.
Qed.

(** X17.  Frames captured while the microphone is muted, or while no
    session is held, are dropped and leave no trace; they are not queued.
    After the user takes over and the component re-renders, each frame
    captured from then on is sent once, in capture order, to the session
    held, and none of the frames captured during the mute is.  A change of
    the mute flag reaches the capture callback only with the next render:
    until then the callback still follows the old value, and
    [toggleMute], which negates the value of the last render, asks for the
    same value when it is called twice within one render. *)
Theorem muted_frames_are_dropped_not_queued (createPcmBlob : Frame → PcmBlob)
    (session : Session) (during after : list Frame) (m : Mic) :
  sessionRef (component m) = Some session →
  isMicMutedRef m = true →
  capture createPcmBlob during m = m
  ∧ realtimeInputLog (capture createPcmBlob after
                        (render (handleTakeOver (capture createPcmBlob during m))))
    = realtimeInputLog m ++ ((λ f, (session, createPcmBlob f)) <$> after)
  ∧ capture createPcmBlob after (handleTakeOver m) = handleTakeOver m
  ∧ isMicMutedRef (render (toggleMute m)) = negb (renderedIsMicMuted m)
  ∧ isMicMuted (component (toggleMute (toggleMute m))) = negb (renderedIsMicMuted m)
  ∧ ∀ m0, sessionRef (component m0) = None → capture createPcmBlob after m0 = m0.
Proof.
  intros Hsession Hmuted.
  assert (capture createPcmBlob during m = m) as Hduring
    by (apply capture_when_silent; by right).
  split; [done|]. rewrite Hduring. split; [|split; [|split; [|split]]].
  - by destruct (capture_when_live createPcmBlob session after (render (handleTakeOver m)))
      as (-> & _).
  - apply capture_when_silent. by right.
  - done.
  - done.
  - intros m0 Hnone. apply capture_when_silent. by left.
Qed.

Lemma muted_frames_are_dropped_not_queued_witness :
  let m := render (onComponent (λ s, deliver Demo.schRender
                                        [toolCallMessage [Demo.executeCall "c1"]] s)
                     {| component := Demo.connected; isMicMutedRef := false;
                        renderedIsMicMuted := false; realtimeInputLog := [] |}) in
  sessionRef (component m) = Some 2
  ∧ isMicMutedRef m = true
  ∧ realtimeInputLog (capture Demo2.blobOf [[0%Q]; [1%Q]]
                        (render (handleTakeOver (capture Demo2.blobOf [[0%Q]] m))))
    = [(2, "pcm"); (2, "pcm")].
Proof.
  intros m.
  assert (sessionRef (component m) = Some 2) as Hsession by (vm_compute; reflexivity).
  assert (isMicMutedRef m = true) as Hmuted by (vm_compute; reflexivity).
  split; [exact Hsession|]. split; [exact Hmuted|].
  exact (proj1 (proj2 (muted_frames_are_dropped_not_queued Demo2.blobOf 2 [[0%Q]]
                         [[0%Q]; [1%Q]] m Hsession Hmuted))).
Defined.

End Tools2.

(** * Turns and calls *)
Section Turns.

(** X18.  Every turn-complete signal leaves both accumulators empty,
    whatever they held and whatever else the message carries besides tool
    calls and audio: the next turn starts from empty accumulators. *)
Theorem turn_completion_empties_both_accumulators (sch : Schedule)
    (message : LiveServerMessage) (s : State) :
  turnComplete message = true →
  toolCall message = None →
  inlineData message = None →
  let s' := final (run sch (onmessage message s)) in
  currentInputTransRef s' = "" ∧ currentOutputTransRef s' = "".
Proof.
  intros Hturn Htool Haudio. cbn zeta. rewrite onmessage_synchronous by done.
  cbn [run runFrom final].
  set (s0 := handleTranscription message s).
  assert (currentInputTransRef (handleTurnComplete message s0) = ""
          ∧ currentOutputTransRef (handleTurnComplete message s0) = "") as [Hin Hout].
  { unfold handleTurnComplete. rewrite Hturn.
    destruct (truthyString (currentInputTransRef s0)) eqn:Hi.
    - match goal with |- context [if ?c then _ else _] => destruct c eqn:Ho end.
      + done.
      + split; [done|]. by apply truthyString_false in Ho.
    - apply truthyString_false in Hi.
      destruct (truthyString (currentOutputTransRef s0)) eqn:Ho; [done|].
      by apply truthyString_false in Ho. }
  unfold handleInterruption. by destruct (interrupted message).
Qed.

Lemma turn_completion_empties_both_accumulators_witness :
  let s := deliver Demo.sch0 [inputDelta "hi"; outputDelta "hello"] Demo.connected in
  turnComplete turnCompleteMessage = true
  ∧ toolCall turnCompleteMessage = None
  ∧ inlineData turnCompleteMessage = None
  ∧ currentInputTransRef s = "hi"
  ∧ currentInputTransRef (final (run Demo.sch0 (onmessage turnCompleteMessage s))) = ""
  ∧ currentOutputTransRef (final (run Demo.sch0 (onmessage turnCompleteMessage s))) = "".
Proof.
  intros s. split; [reflexivity|]. split; [reflexivity|]. split; [reflexivity|].
  split; [reflexivity|].
  exact (turn_completion_empties_both_accumulators Demo.sch0 turnCompleteMessage s
           eq_refl eq_refl eq_refl).
Defined.

Lemma mute_kept : StepsKeep (λ s, isMicMuted s = true).
Proof.
  split; intros; unfold handleTranscription, handleTurnComplete, handleInterruption,
    sendToolResponse, beginAudioOutput; repeat case_match; first [assumption|reflexivity].
Qed.

Lemma stopAudio_keeps_mute s : isMicMuted (stopAudio s) = isMicMuted s.
Proof.
  destruct s as [? ? ? ? ? ? ? outCtx inCtx ? ? ? ? ? ? ? ? ? ? ? ? ? ? ? ? ?].
  by destruct outCtx, inCtx.
Qed.

(** X19.  Nothing but the user unmutes the microphone: once it is muted
    (as [execute_call] does) it stays muted across the handling of any
    messages, the turn completion that takes the agent state back to
    [LISTENING] included, and also across [stopAudio], [onopen] and
    [connectToLiveAPI], so that a session started after a call starts
    muted. *)
Theorem mute_outlives_the_call_and_the_session (sch : Schedule)
    (messages : list LiveServerMessage) (s : State) :
  respects sch (λ s', isMicMuted s' = true) →
  isMicMuted s = true →
  isMicMuted (deliver sch messages s) = true
  ∧ isMicMuted (stopAudio s) = true
  ∧ isMicMuted (onopen s) = true
  ∧ ∀ n, isMicMuted (final (runFrom sch n (connectToLiveAPI s))) = true.
Proof.
  intros Hsch Hmuted.
  split; [by apply (deliver_keeps _ mute_kept)|].
  split; [by rewrite stopAudio_keeps_mute|]. split; [done|].
  intros n. apply (maintains_run (λ s', isMicMuted s' = true)); [done|].
  by apply connectToLiveAPI_maintains.
Qed.

Lemma mute_outlives_the_call_and_the_session_witness :
  let s := deliver Demo.schRender [toolCallMessage [Demo.executeCall "c1"]] Demo.connected in
  let s' := deliver Demo.schRender [outputDelta "Hello?"; turnCompleteMessage] s in
  respects Demo.schRender (λ s', isMicMuted s' = true)
  ∧ isMicMuted s = true
  ∧ agentState s' = LISTENING
  ∧ isMicMuted s' = true.
Proof.
  intros s s'.
  assert (respects Demo.schRender (λ s', isMicMuted s' = true)) as Hsch by (by intros n s0).
  split; [exact Hsch|]. split; [vm_compute; reflexivity|]. split; [vm_compute; reflexivity|].
  exact (proj1 (mute_outlives_the_call_and_the_session Demo.schRender
                  [outputDelta "Hello?"; turnCompleteMessage] s Hsch eq_refl)).
Defined.

End Turns.
